(** * git-commit-format: chunking and formatting of git commit messages

    A shallow embedding of the TypeScript sources of the extension:

    - [Formatter]: [src/formatter.ts], the chunk-aware formatter
      ([getDocumentChunks], [isTrailersChunk], [formatSubjectChunk],
      [formatParagraphChunk] and the per-chunk [formatGitCommitMessage]);
    - [PlainText]: the earlier whole-document formatter, a function from
      the text of a message to the formatted text;
    - [Extension]: [editEntireDocument], the wrapper that hands the whole
      text of a document to the whole-document formatter.

    JavaScript strings are sequences of UTF-16 code units; they are lists
    of [N] here, and every regular expression of the sources is a boolean
    function on such lists, with the reading of the expression written next
    to it. *)

From Stdlib Require Import String Ascii.
From Stdlib Require Import List Arith Lia Bool NArith Sorted.
Import ListNotations.

Set Implicit Arguments.

(** ** JavaScript strings and the string primitives the sources use *)

Module JS.

Definition char := N.
Definition text := list char.

(** A literal of the sources, as code units. *)
Definition str (s : string) : text :=
  map N_of_ascii (list_ascii_of_string s).

Definition NL : char := 10%N.
Definition SP : char := 32%N.
Definition HASH : char := 35%N.
Definition COLON : char := 58%N.

(** [\s]: the WhiteSpace and LineTerminator code points of ECMAScript.
    [String.prototype.trim] strips the same set. *)
Definition is_space (c : char) : bool :=
  existsb (N.eqb c)
    [9; 10; 11; 12; 13; 32; 160; 5760;
     8192; 8193; 8194; 8195; 8196; 8197; 8198; 8199; 8200; 8201; 8202;
     8232; 8233; 8239; 8287; 12288; 65279]%N.

(** [.] matches every code unit but the line terminators. *)
Definition is_line_terminator (c : char) : bool :=
  existsb (N.eqb c) [10; 13; 8232; 8233]%N.

(** [[^\n]] *)
Definition not_nl (c : char) : bool := negb (N.eqb c NL).

(** [[A-Za-z0-9\-]] *)
Definition is_token_char (c : char) : bool :=
  ((65 <=? c) && (c <=? 90) || (97 <=? c) && (c <=? 122)
   || (48 <=? c) && (c <=? 57) || (c =? 45))%N.

Fixpoint dropWhile (p : char -> bool) (s : text) : text :=
  match s with
  | [] => []
  | c :: r => if p c then dropWhile p r else s
  end.

Fixpoint text_eqb (s t : text) : bool :=
  match s, t with
  | [], [] => true
  | c :: s', d :: t' => N.eqb c d && text_eqb s' t'
  | _, _ => false
  end.

(** [s.startsWith(p)] *)
Fixpoint startsWith (s p : text) : bool :=
  match p, s with
  | [], _ => true
  | d :: p', c :: s' => N.eqb c d && startsWith s' p'
  | _ :: _, [] => false
  end.

(** [s.trim()] *)
Definition trim (s : text) : text :=
  rev (dropWhile is_space (rev (dropWhile is_space s))).

(** [s.replace(/\s+/g, ' ')]: every maximal run of whitespace becomes one
    space. [in_run] tells that the previous code unit belonged to the run
    that is being replaced. *)
Fixpoint replace_spaces_from (in_run : bool) (s : text) : text :=
  match s with
  | [] => []
  | c :: r =>
      if is_space c
      then (if in_run then replace_spaces_from true r
            else SP :: replace_spaces_from true r)
      else c :: replace_spaces_from false r
  end.

Definition replace_spaces (s : text) : text := replace_spaces_from false s.

(** [s.split("\n")]: never empty, the empty string splits into [[""]]. *)
Fixpoint split_nl (s : text) : list text :=
  match s with
  | [] => [[]]
  | c :: r =>
      if N.eqb c NL then [] :: split_nl r
      else match split_nl r with
           | l :: ls => (c :: l) :: ls
           | [] => [[c]]
           end
  end.

(** [a.join("\n")] *)
Fixpoint join_nl (a : list text) : text :=
  match a with
  | [] => []
  | [l] => l
  | l :: ls => l ++ NL :: join_nl ls
  end.

(** *** The wrapping expression

    [/(?![^\n]{1,72}$)([^\n]{1,72})\s/g], replaced by ['$1\n'].

    Neither [^] nor [$] is multi-line, so [$] is the end of the input.
    At a position whose remaining input is [s]:
    - the negative look-ahead rejects the position when [s] consists of
      1 to 72 code units, none of them a newline ([wrap_lookahead]);
    - the group is greedy: it takes up to 72 code units that are not
      newlines and gives them back one by one until the next code unit
      is whitespace, so the match is the largest [k] in 1..72 with the
      first [k] code units free of newlines and [s[k]] whitespace
      ([wrap_match]). *)
Definition wrap_lookahead (s : text) : bool :=
  (1 <=? length s) && (length s <=? 72) && forallb not_nl s.

Definition wrap_group_ok (k : nat) (s : text) : bool :=
  (length (firstn k s) =? k) && forallb not_nl (firstn k s)
  && match nth_error s k with
     | Some c => is_space c
     | None => false
     end.

Fixpoint wrap_match_upto (n : nat) (s : text) : option nat :=
  match n with
  | 0 => None
  | S n' => if wrap_group_ok n s then Some n else wrap_match_upto n' s
  end.

Definition wrap_match (s : text) : option nat :=
  if wrap_lookahead s then None else wrap_match_upto 72 s.

(** The global replacement: a match of length [k + 1] at the current
    position is replaced by its first [k] code units and a newline, and
    the search goes on behind the match; without a match the current
    code unit is copied and the search goes on one code unit later. The
    expression never looks behind, so the rest of the input is all the
    state there is. The fuel is the length of the input: every step
    consumes at least one code unit. *)
Fixpoint replace_wrap_fuel (fuel : nat) (s : text) : text :=
  match fuel with
  | 0 => s
  | S fuel' =>
      match s with
      | [] => []
      | c :: r =>
          match wrap_match s with
          | Some k => firstn k s ++ NL :: replace_wrap_fuel fuel' (skipn (S k) s)
          | None => c :: replace_wrap_fuel fuel' r
          end
      end
  end.

Definition replace_wrap (s : text) : text := replace_wrap_fuel (length s) s.

(** [s.replace(/\n\n\n*/g, '\n\n')]: a run of two or more newlines
    becomes two newlines, a single newline stays. [run] counts the
    newlines of the current run that were already read. *)
Fixpoint replace_newlines_from (run : nat) (s : text) : text :=
  match s with
  | [] => []
  | c :: r =>
      if N.eqb c NL
      then (if run <? 2 then NL :: replace_newlines_from (S run) r
            else replace_newlines_from (S run) r)
      else c :: replace_newlines_from 0 r
  end.

Definition replace_newlines (s : text) : text := replace_newlines_from 0 s.

(** *** Vocabulary of the statements about wrapping *)

(** Free of whitespace: one token, or a part of one. *)
Definition token (l : text) : Prop := Forall (fun c => is_space c = false) l.

(** Every whitespace is a space, and no whitespace follows it. *)
Fixpoint loose (s : text) : Prop :=
  match s with
  | [] => True
  | c :: r =>
      (is_space c = true ->
       c = SP /\ match r with [] => True | c' :: _ => is_space c' = false end)
      /\ loose r
  end.

(** Every whitespace is a space, and a code unit that is no whitespace
    follows it. *)
Fixpoint single_spaced (s : text) : Prop :=
  match s with
  | [] => True
  | c :: r =>
      (is_space c = true ->
       c = SP /\ match r with [] => False | c' :: _ => is_space c' = false end)
      /\ single_spaced r
  end.

Definition no_leading_space (s : text) : Prop :=
  match s with
  | [] => True
  | c :: _ => is_space c = false
  end.

(** Tokens with one space between them and nothing around them. *)
Definition tidy (s : text) : Prop := no_leading_space s /\ single_spaced s.

(** A line fits when it has at most 72 code units or is one token. *)
Definition fits (l : text) : Prop :=
  length l <= 72 \/ 72 < length l /\ token l.

(** A code unit of the wrapped text against the one of the text before
    wrapping: the same, or a newline for a space. *)
Definition kept_or_broken (a b : char) : Prop := b = a \/ a = SP /\ b = NL.

End JS.

Import JS.

(** ** [src/formatter.ts]: chunks of a commit message *)

Module Formatter.

(** *** The document, as the formatter reads it

    [vscode.TextDocument] is read through [lineCount], [lineAt(i).text],
    [lineAt(i).range], [positionAt(0)] and [getText(range)]. A document
    is its lines and its end-of-line sequence. *)

Record Position := mkPosition { line : nat; character : nat }.
Record Range := mkRange { start : Position; end_ : Position }.

Record TextDocument := mkDocument { lines : list text; eol : text }.

Definition lineCount (d : TextDocument) : nat := length (lines d).

(** [document.lineAt(i).text]. The editor raises for [i] out of range;
    every call of the sources is shown to be in range where it matters. *)
Definition lineAt (d : TextDocument) (i : nat) : text := nth i (lines d) [].

(** [document.lineAt(i).range] *)
Definition lineRange (d : TextDocument) (i : nat) : Range :=
  mkRange (mkPosition i 0) (mkPosition i (length (lineAt d i))).

(** [document.positionAt(0)] *)
Definition positionAt0 (d : TextDocument) : Position := mkPosition 0 0.

(** [range.with(undefined, end)] *)
Definition with_end (r : Range) (e : Position) : Range := mkRange (start r) e.

(** [document.getText(range)] *)
Definition getText (d : TextDocument) (r : Range) : text :=
  let sl := line (start r) in
  let el := line (end_ r) in
  if sl =? el
  then firstn (character (end_ r) - character (start r))
         (skipn (character (start r)) (lineAt d sl))
  else skipn (character (start r)) (lineAt d sl) ++ eol d
       ++ flat_map (fun i => lineAt d i ++ eol d) (seq (S sl) (el - S sl))
       ++ firstn (character (end_ r)) (lineAt d el).

(** *** Regular expressions of the module (none of them global) *)

(** [/^\s*$/] *)
Definition REGEX_BLANK (s : text) : bool := forallb is_space s.

(** [/^\s*(#|$)/]: [\s*] takes the whole run of leading whitespace; a
    shorter run would have to be followed by [#] or by the end of the
    input, and is followed by whitespace. *)
Definition REGEX_SPLIT (s : text) : bool :=
  match dropWhile is_space s with
  | [] => true
  | c :: _ => N.eqb c HASH
  end.

Definition CUT_LINE : text :=
  str "# ------------------------ >8 ------------------------".

(** [/^# ------------------------ >8 ------------------------$/] *)
Definition REGEX_CUT_LINE (s : text) : bool := text_eqb s CUT_LINE.

(** [.+$]: one or more code units up to the end of the input, none of
    them a line terminator. *)
Definition trailer_value (v : text) : bool :=
  match v with
  | [] => false
  | _ :: _ => forallb (fun c => negb (is_line_terminator c)) v
  end.

(** [\s?: .+$], behind the token. *)
Definition trailer_rest (r : text) : bool :=
  match r with
  | c1 :: c2 :: v =>
      N.eqb c1 COLON && N.eqb c2 SP && trailer_value v
      || is_space c1 && N.eqb c2 COLON
         && match v with
            | c3 :: v' => N.eqb c3 SP && trailer_value v'
            | [] => false
            end
  | _ => false
  end.

(** [/^[A-Za-z0-9\-]+\s?: .+$/]: the token is the whole run of token
    characters at the start (a shorter one is followed by a token
    character, which is neither whitespace nor a colon), and it is not
    empty. *)
Definition REGEX_TRAILER (s : text) : bool :=
  match s with
  | [] => false
  | c :: _ => is_token_char c && trailer_rest (dropWhile is_token_char s)
  end.

(** [/^\s+$/] *)
Definition REGEX_TRAILER_CONT (s : text) : bool :=
  match s with
  | [] => false
  | _ :: _ => forallb is_space s
  end.

(** *** Chunks *)

Inductive GitChunkKind := Subject | Paragraph | Comment | Blank | Diff | Trailers.

Definition kind_eqb (a b : GitChunkKind) : bool :=
  match a, b with
  | Subject, Subject | Paragraph, Paragraph | Comment, Comment
  | Blank, Blank | Diff, Diff | Trailers, Trailers => true
  | _, _ => false
  end.

Record GitCommitChunk := mkChunk { range : Range; kind : GitChunkKind }.

(** [formatSubjectChunk] *)
Definition formatSubjectChunk (t : text) : text := trim (replace_spaces t).

(** [formatParagraphChunk] *)
Definition formatParagraphChunk (t : text) : text :=
  replace_wrap (trim (replace_spaces t)).

(** *** [isTrailersChunk] *)

Definition GIT_GENERATED_PREFIXES : list text :=
  [str "Signed-off-by: "; str "(cherry picked from commit "].

Record TrailerScan := mkTrailerScan {
  first_line : bool;
  recognized_prefix : bool;
  trailers : nat;
  non_trailers : nat;
  possible_continuation : bool
}.

(** One round of the loop either goes on with the next line or leaves
    the function with a result. *)
Inductive Flow := Next (s : TrailerScan) | Return (b : bool).

(** The ways through the body of the loop, in the order of the source:
    the [continue] of a first line with a known prefix, the [continue]
    of a continuation line, the [continue] of a trailer line, the fast
    exit, and the fall through of a line that is no trailer. *)
Inductive Branch := PrefixLine | Continuation | TrailerLine | FastExit | NonTrailer.

(** [recognized_prefix] behind the test of the first line. *)
Definition prefix_after (t : text) (s : TrailerScan) : bool :=
  if first_line s
  then recognized_prefix s || existsb (startsWith t) GIT_GENERATED_PREFIXES
  else recognized_prefix s.

Definition trailer_branch (t : text) (s : TrailerScan) : Branch :=
  if first_line s && prefix_after t s then PrefixLine
  else if possible_continuation s && REGEX_TRAILER_CONT t then Continuation
  else if REGEX_TRAILER t then TrailerLine
  else if negb (prefix_after t s) then FastExit
  else NonTrailer.

Definition trailer_body (t : text) (s : TrailerScan) : Flow :=
  let prefix := prefix_after t s in
  match trailer_branch t s with
  | PrefixLine =>
      Next (mkTrailerScan false prefix (S (trailers s)) (non_trailers s)
              (possible_continuation s))
  | Continuation =>
      Next (mkTrailerScan false prefix (trailers s) (non_trailers s)
              (possible_continuation s))
  | TrailerLine =>
      Next (mkTrailerScan false prefix (S (trailers s)) (non_trailers s) true)
  | FastExit => Return false
  | NonTrailer =>
      Next (mkTrailerScan false prefix (trailers s) (S (non_trailers s)) false)
  end.

Definition trailer_verdict (s : TrailerScan) : bool :=
  (non_trailers s =? 0) && (0 <? trailers s)
  || recognized_prefix s && (non_trailers s <=? 3 * trailers s).

Fixpoint trailer_loop (ts : list text) (s : TrailerScan) : bool :=
  match ts with
  | [] => trailer_verdict s
  | t :: r =>
      match trailer_body t s with
      | Next s' => trailer_loop r s'
      | Return b => b
      end
  end.

(** The texts [document.lineAt(counter).text] for [counter] from the
    first to the last line of a range. *)
Definition chunk_lines (d : TextDocument) (r : Range) : list text :=
  map (lineAt d) (seq (line (start r)) (S (line (end_ r)) - line (start r))).

Definition trailer_init : TrailerScan := mkTrailerScan true false 0 0 false.

Definition isTrailersChunk (chunk : GitCommitChunk) (d : TextDocument) : bool :=
  trailer_loop (chunk_lines d (range chunk)) trailer_init.

(** The branches the loop takes, line after line. *)
Fixpoint trailer_trace (ts : list text) (s : TrailerScan) : list Branch :=
  match ts with
  | [] => []
  | t :: r =>
      trailer_branch t s
      :: match trailer_body t s with
         | Next s' => trailer_trace r s'
         | Return _ => []
         end
  end.

(** *** [getDocumentChunks] *)

Record ScanState := mkScan {
  chunks : list GitCommitChunk;
  lastKind : GitChunkKind;
  hadInitialLine : bool;
  hadSubjectLine : bool;
  hadCutLine : bool;
  areInDiff : bool
}.

(** The array starts with the fake initial chunk. *)
Definition scan_init (d : TextDocument) : ScanState :=
  mkScan [mkChunk (mkRange (positionAt0 d) (positionAt0 d)) Blank]
         Blank false false false false.

(** The raw kind of a line. *)
Definition rawKind (t : text) : GitChunkKind :=
  if REGEX_BLANK t then Blank
  else if REGEX_SPLIT t then Comment
  else Paragraph.

(** [hadCutLine] behind a line: the cut line is only looked for on
    lines of raw kind Comment. *)
Definition cut_after (had : bool) (t : text) : bool :=
  had || negb (REGEX_BLANK t) && REGEX_SPLIT t && REGEX_CUT_LINE t.

(** [areInDiff] behind a line. *)
Definition diff_after (inDiff hadCut : bool) (t : text) : bool :=
  inDiff || hadCut && negb (REGEX_SPLIT t).

(** [chunks[chunks.length - 1].range = ...] *)
Fixpoint update_last (f : GitCommitChunk -> GitCommitChunk)
    (cs : list GitCommitChunk) : list GitCommitChunk :=
  match cs with
  | [] => []
  | [c] => [f c]
  | c :: r => c :: update_last f r
  end.

Definition loop_body (d : TextDocument) (st : ScanState) (counter : nat)
    : ScanState :=
  let t := lineAt d counter in
  let hadCut := cut_after (hadCutLine st) t in
  let inDiff := diff_after (areInDiff st) hadCut t in
  let kind := if inDiff then Diff else rawKind t in
  if kind_eqb kind (lastKind st)
  then mkScan
         (update_last
            (fun c => mkChunk (with_end (range c) (end_ (lineRange d counter)))
                              (Formatter.kind c))
            (chunks st))
         (lastKind st) true (hadSubjectLine st) hadCut inDiff
  else
    let chunks1 :=
      if hadInitialLine st then chunks st else removelast (chunks st) in
    let promote := kind_eqb kind Paragraph && negb (hadSubjectLine st) in
    mkScan
      (chunks1 ++ [mkChunk (lineRange d counter)
                           (if promote then Subject else kind)])
      kind true (hadSubjectLine st || promote) hadCut inDiff.

(** The state behind the first [n] rounds of the loop. *)
Definition scan (d : TextDocument) (n : nat) : ScanState :=
  fold_left (loop_body d) (seq 0 n) (scan_init d).

(** [a.lastIndexOf(k)], with [None] for [-1]. *)
Fixpoint lastIndexOf_from (k : GitChunkKind) (ks : list GitChunkKind)
    (i : nat) : option nat :=
  match ks with
  | [] => None
  | x :: r =>
      match lastIndexOf_from k r (S i) with
      | Some j => Some j
      | None => if kind_eqb x k then Some i else None
      end
  end.

Definition lastIndexOf (k : GitChunkKind) (ks : list GitChunkKind) : option nat :=
  lastIndexOf_from k ks 0.

(** [lastParagraph.kind = GitChunkKind.Trailers]: the chunk is an object
    of the array, so the assignment changes the array at its index. *)
Fixpoint set_kind (i : nat) (k : GitChunkKind) (cs : list GitCommitChunk)
    : list GitCommitChunk :=
  match cs, i with
  | [], _ => []
  | c :: r, 0 => mkChunk (range c) k :: r
  | c :: r, S i' => c :: set_kind i' k r
  end.

(** The last chunk of kind Paragraph, with its index; [None] where the
    source reads [chunks[-1]], which is [undefined]. *)
Definition lastParagraph (cs : list GitCommitChunk)
    : option (nat * GitCommitChunk) :=
  match lastIndexOf Paragraph (map kind cs) with
  | Some i =>
      match nth_error cs i with
      | Some c => Some (i, c)
      | None => None
      end
  | None => None
  end.

Definition reclassify (d : TextDocument) (cs : list GitCommitChunk)
    : list GitCommitChunk :=
  match lastParagraph cs with
  | Some (i, c) => if isTrailersChunk c d then set_kind i Trailers cs else cs
  | None => cs
  end.

Definition getDocumentChunks (d : TextDocument) : list GitCommitChunk :=
  reclassify d (chunks (scan d (lineCount d))).

(** *** [formatGitCommitMessage]: one edit per chunk, or none *)

Record TextEdit := mkTextEdit { edit_range : Range; newText : text }.

(** The callback of [map]; [None] is [undefined]. *)
Definition chunk_edit (d : TextDocument) (c : GitCommitChunk) : option TextEdit :=
  let t := getText d (range c) in
  match kind c with
  | Subject => Some (mkTextEdit (range c) (formatSubjectChunk t))
  | Paragraph => Some (mkTextEdit (range c) (formatParagraphChunk t))
  | Trailers => Some (mkTextEdit (range c) t)
  | Blank => Some (mkTextEdit (range c) [])
  | Comment | Diff => None
  end.

(** [.filter(e => e !== undefined)] *)
Fixpoint filter_defined (A : Type) (l : list (option A)) : list A :=
  match l with
  | [] => []
  | Some x :: r => x :: filter_defined r
  | None :: r => filter_defined r
  end.

Definition formatGitCommitMessage (d : TextDocument) : list TextEdit :=
  filter_defined (map (chunk_edit d) (getDocumentChunks d)).

(** *** Vocabulary of the statements *)

Definition startLine (c : GitCommitChunk) : nat := line (start (range c)).
Definition endLine (c : GitCommitChunk) : nat := line (end_ (range c)).

(** The chunks tile the lines from [lo] up to, not including, [hi]:
    each starts where its predecessor ended and holds a line. *)
Fixpoint tiles (lo : nat) (cs : list GitCommitChunk) (hi : nat) : Prop :=
  match cs with
  | [] => lo = hi
  | c :: r => startLine c = lo /\ lo <= endLine c /\ tiles (S (endLine c)) r hi
  end.

(** The kind the loop of [getDocumentChunks] gives line [i]: Diff once
    the diff has begun, the raw kind before. *)
Definition lineKind (d : TextDocument) (i : nat) : GitChunkKind :=
  if areInDiff (scan d (S i)) then Diff else rawKind (lineAt d i).

(** The kind of the lines of a chunk: Subject and Trailers are given to
    chunks of lines of kind Paragraph. *)
Definition base_kind (k : GitChunkKind) : GitChunkKind :=
  match k with
  | Subject | Trailers => Paragraph
  | _ => k
  end.

Definition count_kind (k : GitChunkKind) (cs : list GitCommitChunk) : nat :=
  length (filter (fun c => kind_eqb (kind c) k) cs).

(** The lines [lo] up to, not including, [hi] have the kind of the
    lines of chunk [c]. *)
Definition kinds_agree (d : TextDocument) (lo hi : nat) (c : GitCommitChunk)
    : Prop :=
  forall i, lo <= i < hi -> base_kind (kind c) = lineKind d i.

(** The invariant of the loop of [getDocumentChunks] behind [m] rounds.
    The last chunk of the array is the open one; before the first round
    it is the fake chunk, which holds no line yet. *)
Record ScanInv (d : TextDocument) (m : nat) (st : ScanState) : Prop := {
  inv_open :
    exists pre c,
      chunks st = pre ++ [c] /\ tiles 0 pre (startLine c)
      /\ base_kind (kind c) = lastKind st
      /\ (if hadInitialLine st
          then startLine c <= endLine c /\ S (endLine c) = m
          else m = 0 /\ pre = [] /\ startLine c = 0)
      /\ Forall (fun c' => kinds_agree d (startLine c') (S (endLine c')) c') pre
      /\ kinds_agree d (startLine c) m c;
  inv_initial : hadInitialLine st = false -> hadSubjectLine st = false;
  inv_no_trailers : Forall (fun k => k <> Trailers) (map kind (chunks st));
  inv_diff :
    areInDiff st = false -> Forall (fun k => k <> Diff) (map kind (chunks st));
  inv_no_subject :
    hadSubjectLine st = false ->
    Forall (fun k => k <> Subject /\ k <> Paragraph) (map kind (chunks st));
  inv_subject :
    hadSubjectLine st = true ->
    exists pre post,
      map kind (chunks st) = pre ++ Subject :: post
      /\ Forall (fun k => k = Comment \/ k = Blank) pre
      /\ Forall (fun k => k <> Subject) post
}.

Definition not_blank (t : text) : Prop := REGEX_BLANK t = false.

(** The kinds [formatGitCommitMessage] returns an edit for. *)
Definition edited (k : GitChunkKind) : bool :=
  match k with
  | Comment | Diff => false
  | Subject | Paragraph | Blank | Trailers => true
  end.

(** What the reclassification of the last paragraph may do to a chunk. *)
Definition reclassified (a b : GitCommitChunk) : Prop :=
  range b = range a /\
  (kind b = kind a \/ kind a = Paragraph /\ kind b = Trailers).

(** *** The decision on trailers in the words of the specification

    A second definition, written from section 4.3 of the specification
    and compared with [isTrailersChunk] below: every line is scored,
    there is no early exit. *)
Module TrailerSpec.

(** A trailer line matches the pattern of a token, optional
    whitespace, a colon, a space and a value that is not empty. *)
Definition is_trailer_line (t : text) : bool := REGEX_TRAILER t.

Definition entirely_whitespace (t : text) : bool := forallb is_space t.

(** The first line begins with one of the prefixes git generates. *)
Definition has_recognized_prefix (ts : list text) : bool :=
  match ts with
  | t :: _ => existsb (startsWith t) GIT_GENERATED_PREFIXES
  | [] => false
  end.

(** [(trailerCount, nonTrailerCount)] of the lines [ts];
    [after_trailer] tells that the line before was a trailer line or
    a continuation line. A continuation line is counted on neither
    side. *)
Fixpoint score (after_trailer : bool) (ts : list text) : nat * nat :=
  match ts with
  | [] => (0, 0)
  | t :: r =>
      if after_trailer && entirely_whitespace t then score true r
      else if is_trailer_line t
      then let (tc, nc) := score true r in (S tc, nc)
      else let (tc, nc) := score false r in (tc, S nc)
  end.

(** A first line with a recognized prefix counts as a trailer
    whatever it looks like. *)
Definition counts (ts : list text) : nat * nat :=
  match ts with
  | [] => (0, 0)
  | t :: r =>
      if has_recognized_prefix ts
      then let (tc, nc) := score (is_trailer_line t) r in (S tc, nc)
      else score false ts
  end.

Definition is_trailers_block (ts : list text) : Prop :=
  let (trailerCount, nonTrailerCount) := counts ts in
  nonTrailerCount = 0 /\ trailerCount > 0
  \/ has_recognized_prefix ts = true /\ 3 * trailerCount >= nonTrailerCount.

End TrailerSpec.

(** A document with line feeds, from the texts of its lines. *)
Definition doc (ls : list string) : TextDocument :=
  mkDocument (map str ls) [NL].

End Formatter.

(** ** The whole-document formatter: text in, text out *)

Module PlainText.

(** *** [const REGEX_SPLIT = /^\s*(#|$)/g]

    The expression is one object of the module and carries the global
    flag, so [REGEX_SPLIT.test] starts at the [lastIndex] the previous
    call left behind and stores a new one. [^] only matches at index 0:
    - with [lastIndex = 0] the match, if any, starts at index 0 and runs
      over the leading whitespace and the [#], or over the whole input
      when it is all whitespace; [lastIndex] becomes the end of the match;
    - with [lastIndex > 0] no index from there on matches; the call
      answers [false] and sets [lastIndex] to 0. *)
Definition split_match_end (s : text) : option nat :=
  let r := dropWhile is_space s in
  match r with
  | [] => Some (length s)
  | c :: _ => if N.eqb c HASH then Some (S (length s - length r)) else None
  end.

Definition REGEX_SPLIT_test (lastIndex : nat) (s : text) : bool * nat :=
  if lastIndex =? 0
  then match split_match_end s with
       | Some e => (true, e)
       | None => (false, 0)
       end
  else (false, 0).

(** [formatSubjectLine]; [String.prototype.replace] resets the
    [lastIndex] of a global expression before and after its work, so
    [REGEX_SPACES], [REGEX_WRAP] and [REGEX_NEWLINES] carry no state. *)
Definition formatSubjectLine (t : text) : text := trim (replace_spaces t).

(** [wrapMessageParagraph] *)
Definition wrapMessageParagraph (t : text) : text :=
  replace_wrap (trim (replace_spaces t)).

(** The state the callback of [forEach] works on. *)
Record Splitting := mkSplitting {
  formatLines : list text;
  buffer : text;
  split_lastIndex : nat
}.

Definition split_line (st : Splitting) (l : text) : Splitting :=
  let (hit, li) := REGEX_SPLIT_test (split_lastIndex st) l in
  if hit
  then mkSplitting (formatLines st ++ [buffer st; l]) [] li
  else mkSplitting (formatLines st) (buffer st ++ l ++ [NL]) li.

(** The state the callback of [map] works on. *)
Record Mapping := mkMapping {
  mapped : list text;
  hadSubjectLine : bool;
  map_lastIndex : nat
}.

Definition map_line (st : Mapping) (l : text) : Mapping :=
  let (hit, li) := REGEX_SPLIT_test (map_lastIndex st) l in
  if hit
  then mkMapping (mapped st ++ [trim l]) (hadSubjectLine st) li
  else if negb (hadSubjectLine st)
  then mkMapping (mapped st ++ [formatSubjectLine l]) true li
  else mkMapping (mapped st ++ [wrapMessageParagraph l]) (hadSubjectLine st) li.

(** [formatGitCommitMessage(text)], from the [lastIndex] of
    [REGEX_SPLIT] before the call to the result and the [lastIndex]
    behind it. *)
Definition formatGitCommitMessage (lastIndex : nat) (t : text) : text * nat :=
  let s := fold_left split_line (split_nl t) (mkSplitting [] [] lastIndex) in
  let fl :=
    if 0 <? length (buffer s) then formatLines s ++ [buffer s]
    else formatLines s in
  let m := fold_left map_line fl (mkMapping [] false (split_lastIndex s)) in
  (replace_newlines (join_nl (mapped m)), map_lastIndex m).

(** [lastIndex] of a freshly loaded module. *)
Definition fresh : nat := 0.

End PlainText.

(** ** The extension around the whole-document formatter *)

Module Extension.

Import Formatter.

Definition position_leb (p q : Position) : bool :=
  (line p <? line q) || (line p =? line q) && (character p <=? character q).

(** [a.union(b)] *)
Definition union (a b : Range) : Range :=
  mkRange (if position_leb (start a) (start b) then start a else start b)
          (if position_leb (end_ a) (end_ b) then end_ b else end_ a).

(** [document.getText()] *)
Fixpoint join_eol (e : text) (ls : list text) : text :=
  match ls with
  | [] => []
  | [l] => l
  | l :: r => l ++ e ++ join_eol e r
  end.

Definition getFullText (d : TextDocument) : text := join_eol (eol d) (lines d).

(** [editEntireDocument(editCallback)(document)]; [None] is the
    [undefined] of the bare [return]. The callback is the
    whole-document formatter, which reads and writes the state [S] of
    its module. *)
Definition editEntireDocument (S : Type)
    (editCallback : S -> text -> text * S) (st : S) (d : TextDocument)
    : option (list TextEdit) * S :=
  if lineCount d =? 0 then (None, st)
  else
    let docStart := lineRange d 0 in
    let docEnd := lineRange d (lineCount d - 1) in
    let documentRange := union docStart docEnd in
    let (newDocument, st') := editCallback st (getFullText d) in
    (Some [mkTextEdit documentRange newDocument], st').

End Extension.


(** ** Documents and texts the statements are tried on *)

Module Examples.

Import Formatter.

Definition message : TextDocument :=
  doc ["Fix the parser"; ""; "It failed on"; "empty input."; "# comment"]%string.

Definition verbose_message : TextDocument :=
  doc ["Fix the parser";
       "# ------------------------ >8 ------------------------";
       "# Everything below is ignored";
       "diff --git a/x b/x"; ""; "+line"]%string.

Definition commented_message : TextDocument :=
  doc ["# On branch main"; ""; "Fix the parser"; ""; "It failed."]%string.

Definition signed_message : TextDocument :=
  doc ["Fix the parser"; ""; "Signed-off-by: A <a@x.com>"]%string.

(** A known prefix on the first line of the last paragraph and three,
    respectively four, lines of prose behind it. *)
Definition three_prose : TextDocument :=
  doc ["Fix the parser"; ""; "Signed-off-by: A <a@x.com>";
       "one"; "two"; "three"]%string.

Definition four_prose : TextDocument :=
  doc ["Fix the parser"; ""; "Signed-off-by: A <a@x.com>";
       "one"; "two"; "three"; "four"]%string.

(** The text of a message that is one comment line. *)
Definition one_comment : text := str "#".

(** The text of a message of two comment lines. *)
Definition two_comments : text := str "#a" ++ NL :: str "#b".

End Examples.

(** ** The other readers of the chunks: folding, outline, selection *)

Module Providers.

Import Formatter.

Inductive FoldingRangeKind := FoldingComment.

(** [new vscode.FoldingRange(start, end, kind)] *)
Record FoldingRange := mkFoldingRange {
  fold_start : nat;
  fold_end : nat;
  fold_kind : option FoldingRangeKind
}.

(** The callback of [map] in [getGitCommitFoldingRanges]. *)
Definition chunk_fold (c : GitCommitChunk) : option FoldingRange :=
  match kind c with
  | Subject | Paragraph | Trailers =>
      Some (mkFoldingRange (line (start (range c))) (line (end_ (range c))) None)
  | Comment =>
      Some (mkFoldingRange (line (start (range c))) (line (end_ (range c)))
              (Some FoldingComment))
  | Blank | Diff => None
  end.

Definition getGitCommitFoldingRanges (d : TextDocument) : list FoldingRange :=
  filter_defined (map chunk_fold (getDocumentChunks d)).

(** [new vscode.DocumentSymbol(name, detail, SymbolKind.Object, range,
    selectionRange)]; the symbol kind is the same for all of them. *)
Record DocumentSymbol := mkDocumentSymbol {
  symbol_name : text;
  symbol_detail : text;
  symbol_range : Range;
  symbol_selection : Range
}.

(** [kindDescriptions.get(kind)]; [None] is [undefined]. *)
Definition kindDescriptions (k : GitChunkKind) : option text :=
  match k with
  | Subject => Some (str "Subject Line")
  | Paragraph => Some (str "Paragraph")
  | Comment => Some (str "Comment")
  | Diff => Some (str "Diff")
  | Trailers => Some (str "Trailers")
  | Blank => None
  end.

Definition chunk_symbol (d : TextDocument) (c : GitCommitChunk)
    : option DocumentSymbol :=
  match kindDescriptions (kind c) with
  | Some description =>
      Some (mkDocumentSymbol description (getText d (range c)) (range c) (range c))
  | None => None
  end.

Definition getGitCommitSymbols (d : TextDocument) : list DocumentSymbol :=
  filter_defined (map (chunk_symbol d) (getDocumentChunks d)).

(** [new vscode.Selection(anchor, active)] *)
Record Selection := mkSelection { anchor : Position; active : Position }.

(** [getSubjectLineSelection]. Without a chunk of kind Subject the source
    reads [document.lineAt(0).range], and the editor raises for a line
    that is not there: [None] is that exception. *)
Definition getSubjectLineSelection (d : TextDocument) : option Selection :=
  match find (fun c => kind_eqb (kind c) Subject) (getDocumentChunks d) with
  | Some subjectLine =>
      Some (mkSelection (start (range subjectLine)) (end_ (range subjectLine)))
  | None =>
      if 0 <? lineCount d
      then Some (mkSelection (start (lineRange d 0)) (end_ (lineRange d 0)))
      else None
  end.

(** [handleOpenGit(document)], on the language of the document and the
    selection of the active editor, if there is one. The result is the
    selection of the active editor behind the call; the outer [None] is
    the exception of [getSubjectLineSelection]. *)
Definition handleOpenGit (languageId : text) (activeTextEditor : option Selection)
    (d : TextDocument) : option (option Selection) :=
  if negb (text_eqb languageId (str "git-commit")) then Some activeTextEditor
  else match activeTextEditor with
       | None => Some None
       | Some _ =>
           match getSubjectLineSelection d with
           | Some s => Some (Some s)
           | None => None
           end
       end.

End Providers.

(** ** The formatter before the known prefixes: all lines must be trailers *)

Module Earlier.

Import Formatter.

(** [/^[A-Za-z0-9\-]+: .+$/] *)
Definition REGEX_TRAILER (s : text) : bool :=
  match s with
  | [] => false
  | c :: _ =>
      is_token_char c
      && match dropWhile is_token_char s with
         | c1 :: c2 :: v => N.eqb c1 COLON && N.eqb c2 SP && trailer_value v
         | _ => false
         end
  end.

Fixpoint trailer_loop (ts : list text) : bool :=
  match ts with
  | [] => true
  | t :: r => if negb (REGEX_TRAILER t) then false else trailer_loop r
  end.

Definition isTrailersChunk (chunk : GitCommitChunk) (d : TextDocument) : bool :=
  trailer_loop (chunk_lines d (range chunk)).

(** The loop of [getDocumentChunks] is the one of [Formatter]; the
    reclassification asks the [isTrailersChunk] of this version. *)
Definition getDocumentChunks (d : TextDocument) : list GitCommitChunk :=
  let cs := chunks (scan d (lineCount d)) in
  match lastParagraph cs with
  | Some (i, c) => if isTrailersChunk c d then set_kind i Trailers cs else cs
  | None => cs
  end.

End Earlier.

(** ** The first formatter: no diff, no trailers *)

Module First.

Inductive GitChunkKind := Subject | Paragraph | Comment | Blank.

Definition kind_eqb (a b : GitChunkKind) : bool :=
  match a, b with
  | Subject, Subject | Paragraph, Paragraph | Comment, Comment | Blank, Blank => true
  | _, _ => false
  end.

Record GitCommitChunk := mkChunk {
  range : Formatter.Range;
  kind : GitChunkKind
}.

Record ScanState := mkScan {
  chunks : list GitCommitChunk;
  lastKind : GitChunkKind;
  hadInitialLine : bool;
  hadSubjectLine : bool
}.

Definition scan_init (d : Formatter.TextDocument) : ScanState :=
  mkScan [mkChunk (Formatter.mkRange (Formatter.positionAt0 d) (Formatter.positionAt0 d))
            Blank]
         Blank false false.

Definition rawKind (t : text) : GitChunkKind :=
  if Formatter.REGEX_BLANK t then Blank
  else if Formatter.REGEX_SPLIT t then Comment
  else Paragraph.

Fixpoint update_last (f : GitCommitChunk -> GitCommitChunk)
    (cs : list GitCommitChunk) : list GitCommitChunk :=
  match cs with
  | [] => []
  | [c] => [f c]
  | c :: r => c :: update_last f r
  end.

Definition loop_body (d : Formatter.TextDocument) (st : ScanState) (counter : nat)
    : ScanState :=
  let kind := rawKind (Formatter.lineAt d counter) in
  if kind_eqb kind (lastKind st)
  then mkScan
         (update_last
            (fun c => mkChunk (Formatter.with_end (range c)
                                 (Formatter.end_ (Formatter.lineRange d counter)))
                              (First.kind c))
            (chunks st))
         (lastKind st) true (hadSubjectLine st)
  else
    let chunks1 :=
      if hadInitialLine st then chunks st else removelast (chunks st) in
    let promote := kind_eqb kind Paragraph && negb (hadSubjectLine st) in
    mkScan
      (chunks1 ++ [mkChunk (Formatter.lineRange d counter)
                           (if promote then Subject else kind)])
      kind true (hadSubjectLine st || promote).

Definition scan (d : Formatter.TextDocument) (n : nat) : ScanState :=
  fold_left (loop_body d) (seq 0 n) (scan_init d).

Definition getDocumentChunks (d : Formatter.TextDocument) : list GitCommitChunk :=
  chunks (scan d (Formatter.lineCount d)).

(** The kinds of this version among the kinds of the later ones. *)
Definition later_kind (k : GitChunkKind) : Formatter.GitChunkKind :=
  match k with
  | Subject => Formatter.Subject
  | Paragraph => Formatter.Paragraph
  | Comment => Formatter.Comment
  | Blank => Formatter.Blank
  end.

Definition later (c : GitCommitChunk) : Formatter.GitCommitChunk :=
  Formatter.mkChunk (range c) (later_kind (kind c)).

Definition later_state (st : ScanState) : Formatter.ScanState :=
  Formatter.mkScan (map later (chunks st)) (later_kind (lastKind st))
    (hadInitialLine st) (hadSubjectLine st) false false.

End First.

(** ** Vocabulary of the further statements *)

Module Vocabulary.

Import Formatter.

(** The tokens of a text: its maximal runs free of whitespace, in order.
    [cur] is the token that is being read. *)
Fixpoint words_from (cur : text) (s : text) : list text :=
  match s with
  | [] => match cur with [] => [] | _ :: _ => [cur] end
  | c :: r =>
      if is_space c
      then match cur with
           | [] => words_from [] r
           | _ :: _ => cur :: words_from [] r
           end
      else words_from (cur ++ [c]) r
  end.

Definition words (s : text) : list text := words_from [] s.

(** The code units of a line up to its first whitespace. *)
Fixpoint first_token (s : text) : text :=
  match s with
  | [] => []
  | c :: r => if is_space c then [] else c :: first_token r
  end.

(** No line could have taken the first token of the next line: with a
    space between them they have more than 72 code units. *)
Fixpoint tight (ls : list text) : Prop :=
  match ls with
  | l1 :: ((l2 :: _) as r) =>
      72 < length l1 + 1 + length (first_token l2) /\ tight r
  | _ => True
  end.

(** The range of a chunk runs from the start of its first line to the
    end of its last line. *)
Definition whole_lines (d : TextDocument) (c : GitCommitChunk) : Prop :=
  range c
  = mkRange (mkPosition (startLine c) 0)
            (mkPosition (endLine c) (length (lineAt d (endLine c)))).

(** Neighbours in the list have lines of different kinds. *)
Fixpoint alternating (ks : list GitChunkKind) : Prop :=
  match ks with
  | k1 :: ((k2 :: _) as r) => base_kind k1 <> base_kind k2 /\ alternating r
  | _ => True
  end.

(** The number of newlines a text begins with. *)
Fixpoint leading_newlines (s : text) : nat :=
  match s with
  | [] => 0
  | c :: r => if N.eqb c NL then S (leading_newlines r) else 0
  end.

End Vocabulary.

Import Formatter.

Unset Implicit Arguments.

(** * The definitions on concrete inputs *)

Example REGEX_TRAILER_accepts :
  map (fun s => REGEX_TRAILER (str s))
      ["Signed-off-by: A"; "Fixes : x"; "K-9: v"; "Key:  "]%string
  = [true; true; true; true].
Proof. reflexivity. Qed.

Example REGEX_TRAILER_rejects :
  map (fun s => REGEX_TRAILER (str s))
      ["foo:bar"; "Key: "; ": x"; "a b: c"; "Key:: v"; ""]%string
  = [false; false; false; false; false; false].
Proof. reflexivity. Qed.

Example REGEX_SPLIT_cases :
  map (fun s => (REGEX_BLANK (str s), REGEX_SPLIT (str s)))
      [""; "  "; " # x"; "#"; "a #"]%string
  = [(true, true); (true, true); (false, true); (false, true); (false, false)].
Proof. reflexivity. Qed.

(** A token of 72 code units is broken off at its end; one of 73 is too
    long for the group at its start and is broken off at its end all the
    same, by a match that starts one code unit later. *)
Example wrap_long_token :
  formatParagraphChunk (repeat 97%N 72 ++ str " b") = repeat 97%N 72 ++ NL :: str "b"
  /\ formatParagraphChunk (repeat 97%N 73 ++ str "  b ")
     = repeat 97%N 73 ++ NL :: str "b".
Proof. split; reflexivity. Qed.

Example chunks_of_verbose_message :
  map (fun c => (startLine c, endLine c, kind c))
      (getDocumentChunks Examples.verbose_message)
  = [(0, 0, Subject); (1, 2, Comment); (3, 5, Diff)].
Proof. reflexivity. Qed.

Example chunks_of_three_prose :
  map (fun c => (startLine c, endLine c, kind c))
      (getDocumentChunks Examples.three_prose)
  = [(0, 0, Subject); (1, 1, Blank); (2, 5, Trailers)].
Proof. reflexivity. Qed.

Example REGEX_SPLIT_test_is_stateful :
  PlainText.REGEX_SPLIT_test 0 (str "  # x") = (true, 3)
  /\ PlainText.REGEX_SPLIT_test 3 (str "  # x") = (false, 0)
  /\ PlainText.REGEX_SPLIT_test 0 (str "") = (true, 0).
Proof. repeat split. Qed.

(** * Facts about [getDocumentChunks] *)

Section ScanFacts.

Variable d : TextDocument.

Lemma kind_eqb_eq a b : kind_eqb a b = true <-> a = b.
Proof. destruct a, b; simpl; split; congruence. Qed.

Lemma kind_eqb_refl a : kind_eqb a a = true.
Proof. destruct a; reflexivity. Qed.

Lemma scan_S n : scan d (S n) = loop_body d (scan d n) n.
Proof. unfold scan. rewrite seq_S, fold_left_app. reflexivity. Qed.

Lemma hadCutLine_step st n :
  hadCutLine (loop_body d st n) = cut_after (hadCutLine st) (lineAt d n).
Proof. unfold loop_body. destruct (kind_eqb _ _); reflexivity. Qed.

Lemma areInDiff_step st n :
  areInDiff (loop_body d st n)
  = diff_after (areInDiff st) (cut_after (hadCutLine st) (lineAt d n)) (lineAt d n).
Proof. unfold loop_body. destruct (kind_eqb _ _); reflexivity. Qed.

Lemma lastKind_step st n :
  lastKind (loop_body d st n)
  = if areInDiff (loop_body d st n) then Diff else rawKind (lineAt d n).
Proof.
  rewrite areInDiff_step. unfold loop_body.
  destruct (kind_eqb _ _) eqn:E; simpl; [|reflexivity].
  apply kind_eqb_eq in E. congruence.
Qed.

Lemma lastKind_scan n : lastKind (scan d (S n)) = lineKind d n.
Proof. unfold lineKind. rewrite scan_S. apply lastKind_step. Qed.

Lemma hadCutLine_mono n m :
  n <= m -> hadCutLine (scan d n) = true -> hadCutLine (scan d m) = true.
Proof.
  intros Hle; induction Hle; intros Hc; [assumption|].
  rewrite scan_S, hadCutLine_step. unfold cut_after. rewrite IHHle; auto.
Qed.

Lemma areInDiff_mono n m :
  n <= m -> areInDiff (scan d n) = true -> areInDiff (scan d m) = true.
Proof.
  intros Hle; induction Hle; intros Hc; [assumption|].
  rewrite scan_S, areInDiff_step. unfold diff_after. rewrite IHHle; auto.
Qed.

Lemma areInDiff_hadCutLine n :
  areInDiff (scan d n) = true -> hadCutLine (scan d n) = true.
Proof.
  induction n; [discriminate|].
  rewrite scan_S, areInDiff_step, hadCutLine_step. unfold diff_after, cut_after.
  destruct (areInDiff (scan d n)); [rewrite IHn; auto|].
  simpl. rewrite andb_true_iff. tauto.
Qed.

Lemma hadCutLine_none n :
  (forall j, j < n -> REGEX_CUT_LINE (lineAt d j) = false) ->
  hadCutLine (scan d n) = false.
Proof.
  induction n; intros H; [reflexivity|].
  rewrite scan_S, hadCutLine_step. unfold cut_after.
  rewrite IHn by (intros; apply H; lia). rewrite (H n) by lia.
  rewrite andb_false_r. reflexivity.
Qed.

End ScanFacts.

(** ** Tilings *)

Section Tiles.

Lemma tiles_app lo a b hi :
  tiles lo (a ++ b) hi <-> exists m, tiles lo a m /\ tiles m b hi.
Proof.
  revert lo. induction a as [|c a IH]; intros lo; simpl.
  - split.
    + intros H. exists lo. auto.
    + intros (m & -> & H). exact H.
  - rewrite IH. split.
    + intros (H1 & H2 & m & H3 & H4). exists m. auto.
    + intros (m & (H1 & H2 & H3) & H4). repeat split; auto. exists m. auto.
Qed.

Lemma tiles_snoc lo cs c hi :
  tiles lo (cs ++ [c]) hi
  <-> tiles lo cs (startLine c) /\ startLine c <= endLine c /\ S (endLine c) = hi.
Proof.
  rewrite tiles_app. simpl. split.
  - intros (m & H1 & H2 & H3 & H4). subst m. auto.
  - intros (H1 & H2 & H3). exists (startLine c). auto.
Qed.

Lemma tiles_le lo cs hi : tiles lo cs hi -> lo <= hi.
Proof.
  revert lo. induction cs as [|c cs IH]; simpl; intros lo H.
  - lia.
  - destruct H as (H1 & H2 & H3). apply IH in H3. lia.
Qed.

Lemma tiles_In lo cs hi c :
  tiles lo cs hi -> In c cs ->
  lo <= startLine c /\ startLine c <= endLine c /\ endLine c < hi.
Proof.
  revert lo. induction cs as [|x cs IH]; simpl; intros lo H Hin; [tauto|].
  destruct H as (H1 & H2 & H3). destruct Hin as [->|Hin].
  - apply tiles_le in H3. lia.
  - destruct (IH _ H3 Hin) as (A & B & C). lia.
Qed.

Lemma tiles_adjacent lo cs hi i c1 c2 :
  tiles lo cs hi ->
  nth_error cs i = Some c1 -> nth_error cs (S i) = Some c2 ->
  endLine c1 + 1 = startLine c2.
Proof.
  revert lo i. induction cs as [|x cs IH]; intros lo i H H1 H2.
  - destruct i; discriminate.
  - destruct H as (A & B & C). destruct i as [|i].
    + simpl in H1. injection H1 as ->. destruct cs as [|y cs]; [discriminate|].
      simpl in H2. injection H2 as ->. destruct C as (C & _). lia.
    + exact (IH _ _ C H1 H2).
Qed.

Lemma tiles_cover lo cs hi i :
  tiles lo cs hi -> lo <= i < hi ->
  exists j c, nth_error cs j = Some c /\ startLine c <= i <= endLine c.
Proof.
  revert lo. induction cs as [|x cs IH]; simpl; intros lo H Hi; [lia|].
  destruct H as (A & B & C).
  destruct (le_lt_dec i (endLine x)) as [Hle|Hgt].
  - exists 0, x. simpl. split; [reflexivity|lia].
  - destruct (IH _ C) as (j & c & Hj & Hc); [lia|].
    exists (S j), c. auto.
Qed.

Lemma tiles_nth_lower lo cs hi j c :
  tiles lo cs hi -> nth_error cs j = Some c ->
  lo <= startLine c /\ startLine c <= endLine c /\ endLine c < hi.
Proof. intros H Hj. eapply tiles_In; eauto using nth_error_In. Qed.

Lemma tiles_unique lo cs hi i j k c c' :
  tiles lo cs hi ->
  nth_error cs j = Some c -> startLine c <= i <= endLine c ->
  nth_error cs k = Some c' -> startLine c' <= i <= endLine c' ->
  j = k.
Proof.
  revert lo j k. induction cs as [|x cs IH]; intros lo j k H Hj Hc Hk Hc'.
  - destruct j; discriminate.
  - destruct H as (A & B & C). destruct j as [|j], k as [|k]; simpl in *.
    + reflexivity.
    + injection Hj as ->. destruct (tiles_nth_lower _ _ _ _ _ C Hk). lia.
    + injection Hk as ->. destruct (tiles_nth_lower _ _ _ _ _ C Hj). lia.
    + f_equal. eapply IH; eauto.
Qed.

Lemma tiles_head lo c cs hi : tiles lo (c :: cs) hi -> startLine c = lo.
Proof. simpl. tauto. Qed.

Lemma tiles_last lo cs c hi : tiles lo (cs ++ [c]) hi -> S (endLine c) = hi.
Proof. rewrite tiles_snoc. tauto. Qed.

(** Tilings only read the ranges. *)
Lemma tiles_ranges lo a b hi :
  map range a = map range b -> tiles lo a hi -> tiles lo b hi.
Proof.
  revert lo b. induction a as [|x a IH]; intros lo [|y b] E; simpl in *;
    try discriminate; auto.
  injection E as E1 E2. unfold startLine, endLine. rewrite E1.
  intros (A & B & C). repeat split; auto.
Qed.

End Tiles.

(** ** The invariant of the loop *)

Section Invariant.

Variable d : TextDocument.

Lemma update_last_snoc f pre c : update_last f (pre ++ [c]) = pre ++ [f c].
Proof.
  induction pre as [|x pre IH]; [reflexivity|].
  simpl. rewrite IH. destruct (pre ++ [c]) eqn:E; [|reflexivity].
  destruct pre; discriminate.
Qed.

Lemma Forall_removelast (A : Type) (P : A -> Prop) l :
  Forall P l -> Forall P (removelast l).
Proof.
  induction 1 as [|x l Hx Hl IH]; simpl; [constructor|].
  destruct l; [constructor|]. constructor; assumption.
Qed.

Lemma map_removelast (A B : Type) (f : A -> B) l :
  map f (removelast l) = removelast (map f l).
Proof.
  induction l as [|x l IH]; [reflexivity|].
  destruct l; [reflexivity|]. simpl in *. rewrite IH. reflexivity.
Qed.

Lemma rawKind_cases t :
  rawKind t = Blank \/ rawKind t = Comment \/ rawKind t = Paragraph.
Proof. unfold rawKind. destruct (REGEX_BLANK t), (REGEX_SPLIT t); auto. Qed.

Lemma lineKind_cases i :
  lineKind d i = Diff /\ areInDiff (scan d (S i)) = true
  \/ areInDiff (scan d (S i)) = false /\ lineKind d i = rawKind (lineAt d i).
Proof. unfold lineKind. destruct (areInDiff _); auto. Qed.

Lemma base_kind_lineKind i : base_kind (lineKind d i) = lineKind d i.
Proof.
  destruct (lineKind_cases i) as [(-> & _)|(_ & ->)]; [reflexivity|].
  destruct (rawKind_cases (lineAt d i)) as [->|[->| ->]]; reflexivity.
Qed.

(** The chunks behind round [m], from the state before it. *)
Lemma chunks_step m :
  let st := scan d m in
  let k := lineKind d m in
  chunks (scan d (S m))
  = if kind_eqb k (lastKind st)
    then update_last
           (fun c => mkChunk (with_end (range c) (end_ (lineRange d m))) (kind c))
           (chunks st)
    else (if hadInitialLine st then chunks st else removelast (chunks st))
         ++ [mkChunk (lineRange d m)
               (if kind_eqb k Paragraph && negb (hadSubjectLine st)
                then Subject else k)].
Proof.
  intros st k. subst k. unfold lineKind. rewrite scan_S, areInDiff_step.
  fold st. unfold loop_body. destruct (kind_eqb _ _); reflexivity.
Qed.

Lemma hadSubjectLine_step m :
  let st := scan d m in
  let k := lineKind d m in
  hadSubjectLine (scan d (S m))
  = if kind_eqb k (lastKind st) then hadSubjectLine st
    else hadSubjectLine st || kind_eqb k Paragraph && negb (hadSubjectLine st).
Proof.
  intros st k. subst k. unfold lineKind. rewrite scan_S, areInDiff_step.
  fold st. unfold loop_body. destruct (kind_eqb _ _); reflexivity.
Qed.

Lemma hadInitialLine_step m : hadInitialLine (scan d (S m)) = true.
Proof. rewrite scan_S. unfold loop_body. destruct (kind_eqb _ _); reflexivity. Qed.

Lemma map_kind_update_last f cs :
  (forall c, kind (f c) = kind c) ->
  map kind (update_last f cs) = map kind cs.
Proof.
  intros Hf. induction cs as [|x cs IH]; [reflexivity|].
  destruct cs as [|y cs]; simpl in *; [rewrite Hf|rewrite IH]; reflexivity.
Qed.

Lemma areInDiff_before m :
  areInDiff (scan d (S m)) = false -> areInDiff (scan d m) = false.
Proof.
  intros H. destruct (areInDiff (scan d m)) eqn:E; [|reflexivity].
  rewrite (areInDiff_mono d m (S m)) in H; auto.
Qed.

Lemma scan_inv_init : ScanInv d 0 (scan d 0).
Proof.
  constructor; simpl; try discriminate.
  - exists [], (mkChunk (mkRange (positionAt0 d) (positionAt0 d)) Blank).
    repeat split; simpl; auto. intros i Hi. lia.
  - auto.
  - repeat constructor. discriminate.
  - intros _. repeat constructor. discriminate.
  - intros _. repeat constructor; discriminate.
Qed.

Lemma scan_inv_step m : ScanInv d m (scan d m) -> ScanInv d (S m) (scan d (S m)).
Proof.
  intros [Hopen Hini Htr Hdiff Hnos Hsub].
  pose proof (chunks_step m) as Hc. pose proof (hadSubjectLine_step m) as Hs.
  pose proof (hadInitialLine_step m) as Hi. pose proof (lastKind_scan d m) as Hl.
  pose proof (base_kind_lineKind m) as Hbk.
  cbv zeta in Hc, Hs.
  destruct Hopen as (pre & c & Ec & Ht & Hb & Hinit & Hpre & Hagree).
  destruct (kind_eqb (lineKind d m) (lastKind (scan d m))) eqn:E.
  - (* the line extends the open chunk *)
    apply kind_eqb_eq in E.
    assert (Hk : map kind (chunks (scan d (S m))) = map kind (chunks (scan d m)))
      by (rewrite Hc; apply map_kind_update_last; reflexivity).
    rewrite Ec, update_last_snoc in Hc.
    constructor.
    + eexists pre, _. split; [exact Hc|]. rewrite Hi, Hl.
      unfold startLine, endLine in *. simpl.
      repeat split; auto; try congruence.
      * destruct (hadInitialLine (scan d m)); lia.
      * intros i Hi'. simpl. destruct (Nat.eq_dec i m) as [->|Hne].
        -- congruence.
        -- apply Hagree. lia.
    + rewrite Hi. discriminate.
    + rewrite Hk. exact Htr.
    + rewrite Hk. intros H. apply Hdiff, areInDiff_before, H.
    + rewrite Hk, Hs. exact Hnos.
    + rewrite Hk, Hs. exact Hsub.
  - (* the line opens a chunk *)
    assert (Hne : lineKind d m <> lastKind (scan d m))
      by (intros H; apply kind_eqb_eq in H; congruence).
    set (chunks1 := if hadInitialLine (scan d m) then chunks (scan d m)
                    else removelast (chunks (scan d m))) in *.
    assert (T1 : tiles 0 chunks1 m
                 /\ Forall (fun c' => kinds_agree d (startLine c') (S (endLine c')) c')
                      chunks1).
    { subst chunks1. rewrite Ec. destruct (hadInitialLine (scan d m)).
      - destruct Hinit as (H1 & H2). split.
        + apply tiles_snoc. auto.
        + apply Forall_app. split; [exact Hpre|]. constructor; [|constructor].
          rewrite H2. exact Hagree.
      - destruct Hinit as (-> & -> & _). simpl. split; constructor. }
    assert (T3 : forall P : GitChunkKind -> Prop,
               Forall P (map kind (chunks (scan d m))) -> Forall P (map kind chunks1)).
    { intros P HP. subst chunks1. destruct (hadInitialLine (scan d m)); [exact HP|].
      rewrite map_removelast. apply Forall_removelast, HP. }
    destruct T1 as (T1 & T2).
    set (knew := if kind_eqb (lineKind d m) Paragraph && negb (hadSubjectLine (scan d m))
                 then Subject else lineKind d m) in *.
    assert (Hknew : base_kind knew = lineKind d m).
    { subst knew. destruct (kind_eqb (lineKind d m) Paragraph) eqn:EP; simpl.
      - apply kind_eqb_eq in EP. rewrite EP.
        destruct (hadSubjectLine (scan d m)); reflexivity.
      - exact Hbk. }
    assert (Hkm : map kind (chunks (scan d (S m))) = map kind chunks1 ++ [knew])
      by (rewrite Hc, map_app; reflexivity).
    constructor.
    + eexists chunks1, _. split; [exact Hc|]. rewrite Hi, Hl.
      unfold startLine, endLine in *. simpl.
      repeat split; auto.
      intros i Hi'. simpl. replace i with m by lia. exact Hknew.
    + rewrite Hi. discriminate.
    + rewrite Hkm. apply Forall_app. split; [apply T3, Htr|].
      constructor; [|constructor]. intros H. rewrite H in Hknew. simpl in Hknew.
      subst knew. rewrite <- Hknew in H. simpl in H.
      destruct (negb _) in H; discriminate.
    + rewrite Hkm. intros H. apply Forall_app.
      split; [apply T3, Hdiff, areInDiff_before, H|].
      constructor; [|constructor]. intros H'. rewrite H' in Hknew. simpl in Hknew.
      destruct (lineKind_cases m) as [(_ & H1)|(_ & H1)]; [congruence|].
      destruct (rawKind_cases (lineAt d m)) as [H2|[H2|H2]]; congruence.
    + rewrite Hkm, Hs. intros H. apply orb_false_iff in H. destruct H as (H1 & H2).
      apply Forall_app. split; [apply T3, Hnos, H1|].
      constructor; [|constructor]. subst knew. rewrite H2. split.
      * intros H. rewrite H in Hbk. discriminate.
      * intros H. rewrite H, H1 in H2. discriminate.
    + rewrite Hkm, Hs. intros H.
      destruct (hadSubjectLine (scan d m)) eqn:HS.
      * destruct (hadInitialLine (scan d m)) eqn:HI; [|discriminate (Hini eq_refl)].
        destruct (Hsub eq_refl) as (p & q & E1 & E2 & E3).
        exists p, (q ++ [knew]). subst chunks1. rewrite E1, <- app_assoc. simpl.
        repeat split; auto. apply Forall_app. split; [exact E3|].
        constructor; [|constructor]. subst knew. rewrite andb_false_r.
        intros H'. rewrite H' in Hbk. discriminate.
      * simpl in H. rewrite andb_true_r in H. subst knew. rewrite H. simpl.
        exists (map kind chunks1), []. repeat split; auto.
        apply kind_eqb_eq in H.
        assert (HD : areInDiff (scan d m) = false).
        { apply areInDiff_before.
          destruct (lineKind_cases m) as [(H1 & _)|(H1 & _)]; congruence. }
        specialize (Hnos eq_refl). specialize (Hdiff HD).
        apply T3. clear - Htr Hnos Hdiff.
        induction (map kind (chunks (scan d m))) as [|x l IH]; constructor.
        -- inversion Htr; inversion Hnos; inversion Hdiff; subst.
           destruct x; tauto.
        -- inversion Htr; inversion Hnos; inversion Hdiff; subst. auto.
Qed.

Lemma scan_inv m : ScanInv d m (scan d m).
Proof. induction m; auto using scan_inv_init, scan_inv_step. Qed.

End Invariant.

(** ** The reclassification of the last paragraph *)

Section Reclassify.

Variable d : TextDocument.

Lemma lastIndexOf_from_Some k ks i0 j :
  lastIndexOf_from k ks i0 = Some j ->
  exists i, j = i0 + i /\ nth_error ks i = Some k
            /\ forall i', i < i' -> nth_error ks i' <> Some k.
Proof.
  revert i0 j. induction ks as [|x ks IH]; intros i0 j; simpl; [discriminate|].
  destruct (lastIndexOf_from k ks (S i0)) as [j'|] eqn:E.
  - intros [= <-]. destruct (IH _ _ E) as (i & -> & Hi & Hlast).
    exists (S i). repeat split; [lia|exact Hi|].
    intros [|i'] Hlt; [lia|]. simpl. apply Hlast. lia.
  - destruct (kind_eqb x k) eqn:Ek; [|discriminate].
    intros [= <-]. apply kind_eqb_eq in Ek. subst x.
    exists 0. repeat split; [lia|].
    intros [|i'] Hlt; [lia|]. simpl. intros Hn.
    clear - E Hn. revert i0 i' E Hn.
    induction ks as [|y ks IH]; intros i0 i' E Hn; [destruct i'; discriminate|].
    simpl in E. destruct (lastIndexOf_from k ks (S (S i0))) eqn:E'; [discriminate|].
    destruct i' as [|i']; simpl in Hn.
    + injection Hn as ->. rewrite kind_eqb_refl in E. discriminate.
    + exact (IH _ _ E' Hn).
Qed.

Lemma lastIndexOf_from_None k ks i0 :
  lastIndexOf_from k ks i0 = None -> ~ In k ks.
Proof.
  revert i0. induction ks as [|x ks IH]; intros i0; simpl; [tauto|].
  destruct (lastIndexOf_from k ks (S i0)) eqn:E; [discriminate|].
  destruct (kind_eqb x k) eqn:Ek; [discriminate|].
  intros _ [->|H].
  - rewrite kind_eqb_refl in Ek. discriminate.
  - exact (IH _ E H).
Qed.

Lemma lastParagraph_Some cs i c :
  lastParagraph cs = Some (i, c) ->
  nth_error cs i = Some c /\ kind c = Paragraph
  /\ forall j c', i < j -> nth_error cs j = Some c' -> kind c' <> Paragraph.
Proof.
  unfold lastParagraph, lastIndexOf.
  destruct (lastIndexOf_from Paragraph (map kind cs) 0) as [j|] eqn:E; [|discriminate].
  destruct (nth_error cs j) as [c0|] eqn:En; [|discriminate].
  intros [= <- <-]. destruct (lastIndexOf_from_Some _ _ _ _ E) as (i & -> & Hi & Hlast).
  simpl in *. rewrite nth_error_map, En in Hi. simpl in Hi. injection Hi as Hi.
  repeat split; auto.
  intros j' c' Hlt Hj' Hk. apply (Hlast j' Hlt).
  rewrite nth_error_map, Hj'. simpl. congruence.
Qed.

Lemma lastParagraph_None cs :
  lastParagraph cs = None -> forall c, In c cs -> kind c <> Paragraph.
Proof.
  unfold lastParagraph, lastIndexOf.
  destruct (lastIndexOf_from Paragraph (map kind cs) 0) as [j|] eqn:E.
  - destruct (lastIndexOf_from_Some _ _ _ _ E) as (i & -> & Hi & _).
    simpl. rewrite nth_error_map in Hi.
    destruct (nth_error cs i); [discriminate|discriminate].
  - intros _ c Hin Hk. apply (lastIndexOf_from_None _ _ _ E).
    rewrite <- Hk. apply in_map, Hin.
Qed.

Lemma reclassified_refl cs : Forall2 reclassified cs cs.
Proof. induction cs; constructor; auto. split; auto. Qed.

Lemma set_kind_reclassified cs i c :
  nth_error cs i = Some c -> kind c = Paragraph ->
  Forall2 reclassified cs (set_kind i Trailers cs).
Proof.
  revert i. induction cs as [|x cs IH]; intros [|i] H Hk; try discriminate.
  - simpl in *. injection H as ->. constructor; [|apply reclassified_refl].
    split; simpl; auto.
  - simpl in *. constructor; [split; auto|]. eapply IH; eauto.
Qed.

Lemma set_kind_nth cs i c k :
  nth_error cs i = Some c ->
  nth_error (set_kind i k cs) i = Some (mkChunk (range c) k).
Proof.
  revert i. induction cs as [|x cs IH]; intros [|i] H; try discriminate.
  - simpl in *. congruence.
  - simpl in *. auto.
Qed.

Lemma reclassify_reclassified cs : Forall2 reclassified cs (reclassify d cs).
Proof.
  unfold reclassify. destruct (lastParagraph cs) as [[i c]|] eqn:E;
    [|apply reclassified_refl].
  destruct (isTrailersChunk c d); [|apply reclassified_refl].
  apply lastParagraph_Some in E. destruct E as (H1 & H2 & _).
  eapply set_kind_reclassified; eauto.
Qed.

Lemma reclassified_ranges a b : Forall2 reclassified a b -> map range a = map range b.
Proof. induction 1 as [|x y a b [H _] _ IH]; simpl; congruence. Qed.

Lemma reclassified_base_kind a b :
  reclassified a b -> base_kind (kind b) = base_kind (kind a).
Proof. intros (_ & [->|(-> & ->)]); reflexivity. Qed.

Lemma reclassified_In a b y :
  Forall2 reclassified a b -> In y b -> exists x, In x a /\ reclassified x y.
Proof.
  induction 1 as [|x0 y0 a b H _ IH]; simpl; [tauto|].
  intros [<-|Hy]; [eauto|]. destruct (IH Hy) as (x & Hx & Hr). eauto.
Qed.

Lemma Forall2_transfer (A B : Type) (R : A -> B -> Prop) (P : A -> Prop)
    (Q : B -> Prop) a b :
  (forall x y, R x y -> P x -> Q y) ->
  Forall2 R a b -> Forall P a -> Forall Q b.
Proof.
  intros HR. induction 1; intros HP; inversion HP; subst; constructor; eauto.
Qed.

End Reclassify.

(** ** The chunks of a document *)

Section Chunks.

Variable d : TextDocument.

(** Without a line the loop does not run and the fake chunk stays. *)
Lemma getDocumentChunks_no_line :
  lineCount d = 0 ->
  getDocumentChunks d
  = [mkChunk (mkRange (mkPosition 0 0) (mkPosition 0 0)) Blank].
Proof. unfold getDocumentChunks. intros ->. reflexivity. Qed.


Lemma scan_tiles m : 1 <= m -> tiles 0 (chunks (scan d m)) m.
Proof.
  intros Hm. destruct m as [|m]; [lia|].
  destruct (inv_open (scan_inv d (S m))) as (pre & c & -> & Ht & _ & Hi & _).
  rewrite hadInitialLine_step in Hi. apply tiles_snoc. tauto.
Qed.

Lemma scan_kinds m c :
  1 <= m -> In c (chunks (scan d m)) ->
  kinds_agree d (startLine c) (S (endLine c)) c.
Proof.
  intros Hm. destruct m as [|m]; [lia|].
  destruct (inv_open (scan_inv d (S m))) as (pre & c0 & -> & _ & _ & Hi & Hpre & Hc).
  rewrite hadInitialLine_step in Hi. destruct Hi as (_ & Hi). rewrite <- Hi in Hc.
  intros Hin. apply in_app_or in Hin. destruct Hin as [Hin|[<-|[]]]; [|exact Hc].
  rewrite Forall_forall in Hpre. auto.
Qed.

Lemma chunks_reclassified :
  Forall2 reclassified (chunks (scan d (lineCount d))) (getDocumentChunks d).
Proof. apply reclassify_reclassified. Qed.

Lemma chunks_tiles : 1 <= lineCount d -> tiles 0 (getDocumentChunks d) (lineCount d).
Proof.
  intros H. eapply tiles_ranges; [|apply scan_tiles, H].
  apply reclassified_ranges, chunks_reclassified.
Qed.

Lemma chunks_kinds c :
  1 <= lineCount d -> In c (getDocumentChunks d) ->
  kinds_agree d (startLine c) (S (endLine c)) c.
Proof.
  intros H Hin.
  destruct (reclassified_In _ _ _ chunks_reclassified Hin) as (x & Hx & Hr).
  pose proof (scan_kinds _ _ H Hx) as Hk. pose proof (reclassified_base_kind _ _ Hr) as Hb.
  destruct Hr as (Hr & _). unfold kinds_agree, startLine, endLine in *.
  rewrite Hr, Hb. exact Hk.
Qed.

Lemma tiles_last_nth lo cs hi :
  tiles lo cs hi -> lo < hi ->
  exists c, nth_error cs (length cs - 1) = Some c /\ S (endLine c) = hi.
Proof.
  intros Ht Hlt. destruct cs as [|x cs] using rev_ind.
  - simpl in Ht. lia.
  - exists x. rewrite length_app, nth_error_app2 by (simpl; lia).
    simpl. replace (length cs + 1 - 1 - length cs) with 0 by lia.
    split; [reflexivity|]. eapply tiles_last, Ht.
Qed.

End Chunks.

(** ** Lines and their kinds *)

Section LineKinds.

Variable d : TextDocument.

Lemma text_eqb_eq s t : text_eqb s t = true <-> s = t.
Proof.
  revert t. induction s as [|c s IH]; intros [|c' t]; simpl;
    try (split; [discriminate|congruence]); [tauto|].
  rewrite andb_true_iff, N.eqb_eq, IH. split; [intros (-> & ->)|intros [= -> ->]]; auto.
Qed.

Lemma cut_line_is_comment t :
  REGEX_CUT_LINE t = true -> REGEX_BLANK t = false /\ REGEX_SPLIT t = true.
Proof. intros H. apply text_eqb_eq in H. subst t. split; reflexivity. Qed.

Lemma blank_is_split t : REGEX_BLANK t = true -> REGEX_SPLIT t = true.
Proof.
  unfold REGEX_BLANK, REGEX_SPLIT. induction t as [|c t IH]; simpl; [reflexivity|].
  destruct (is_space c); [exact IH|discriminate].
Qed.

Lemma trailer_cont_is_blank t : REGEX_TRAILER_CONT t = true -> REGEX_BLANK t = true.
Proof. destruct t; [discriminate|exact (fun H => H)]. Qed.

Lemma base_kind_Diff k : base_kind k = Diff -> k = Diff.
Proof. destruct k; simpl; congruence. Qed.

Lemma base_kind_Paragraph k :
  base_kind k = Paragraph <-> k = Subject \/ k = Paragraph \/ k = Trailers.
Proof. destruct k; simpl; intuition congruence. Qed.

Lemma lineKind_Paragraph i :
  lineKind d i = Paragraph ->
  REGEX_BLANK (lineAt d i) = false /\ REGEX_SPLIT (lineAt d i) = false.
Proof.
  destruct (lineKind_cases d i) as [(-> & _)|(_ & ->)]; [discriminate|].
  unfold rawKind. destruct (REGEX_BLANK _), (REGEX_SPLIT _); auto; discriminate.
Qed.

(** A line that is neither blank nor a comment, with no cut line up to
    it, is a line of kind Paragraph. *)
Lemma lineKind_before_cut i :
  REGEX_SPLIT (lineAt d i) = false ->
  (forall j, j < i -> REGEX_CUT_LINE (lineAt d j) = false) ->
  lineKind d i = Paragraph.
Proof.
  intros Hs Hcut.
  assert (Hc : hadCutLine (scan d (S i)) = false).
  { apply hadCutLine_none. intros j Hj. destruct (Nat.eq_dec j i) as [->|Hne].
    - destruct (REGEX_CUT_LINE (lineAt d i)) eqn:E; [|reflexivity].
      apply cut_line_is_comment in E. destruct E. congruence.
    - apply Hcut. lia. }
  destruct (lineKind_cases d i) as [(_ & H)|(_ & ->)].
  - apply areInDiff_hadCutLine in H. congruence.
  - unfold rawKind. rewrite Hs. destruct (REGEX_BLANK _) eqn:E; [|reflexivity].
    apply blank_is_split in E. congruence.
Qed.

(** Behind a cut line, the first line that is no comment begins the
    diff, and the diff goes on. *)
Lemma lineKind_in_diff c n i :
  c < n -> n <= i ->
  REGEX_CUT_LINE (lineAt d c) = true -> REGEX_SPLIT (lineAt d n) = false ->
  areInDiff (scan d (S i)) = true /\ lineKind d i = Diff.
Proof.
  intros Hcn Hni Hcut Hs.
  assert (H1 : hadCutLine (scan d n) = true).
  { apply (hadCutLine_mono d (S c) n); [lia|].
    rewrite scan_S, hadCutLine_step. unfold cut_after.
    destruct (cut_line_is_comment _ Hcut) as (-> & ->). rewrite Hcut.
    apply orb_true_r. }
  assert (H2 : areInDiff (scan d (S i)) = true).
  { apply (areInDiff_mono d (S n) (S i)); [lia|].
    rewrite scan_S, areInDiff_step. unfold diff_after, cut_after.
    rewrite H1, Hs. simpl. apply orb_true_r. }
  split; [exact H2|]. unfold lineKind. rewrite H2. reflexivity.
Qed.

Lemma chunk_lines_Forall (P : text -> Prop) r :
  (forall i, line (start r) <= i <= line (end_ r) -> P (lineAt d i)) ->
  Forall P (chunk_lines d r).
Proof.
  intros H. unfold chunk_lines. apply Forall_map, Forall_forall.
  intros i Hi. apply in_seq in Hi. apply H. lia.
Qed.

End LineKinds.

(** ** The subject *)

Section SubjectFacts.

Variable d : TextDocument.

Lemma count_kind_app k a b : count_kind k (a ++ b) = count_kind k a + count_kind k b.
Proof. unfold count_kind. rewrite filter_app, length_app. reflexivity. Qed.

Lemma count_kind_none k cs :
  Forall (fun c => kind c <> k) cs -> count_kind k cs = 0.
Proof.
  unfold count_kind. induction 1 as [|x cs Hx _ IH]; [reflexivity|].
  simpl. destruct (kind_eqb (kind x) k) eqn:E; [|exact IH].
  apply kind_eqb_eq in E. contradiction.
Qed.

Lemma subject_split_scan m :
  hadSubjectLine (scan d m) = true ->
  exists pre s post,
    chunks (scan d m) = pre ++ s :: post /\ kind s = Subject
    /\ Forall (fun c => kind c = Comment \/ kind c = Blank) pre
    /\ Forall (fun c => kind c <> Subject) post.
Proof.
  intros H. destruct (inv_subject (scan_inv d m) H) as (p & q & E & Hp & Hq).
  apply map_eq_app in E. destruct E as (pre & r & E & <- & Er).
  apply map_eq_cons in Er. destruct Er as (s & post & -> & Hs & <-).
  exists pre, s, post. rewrite Forall_map in Hp, Hq. auto.
Qed.

Lemma subject_split :
  hadSubjectLine (scan d (lineCount d)) = true ->
  exists pre s post,
    getDocumentChunks d = pre ++ s :: post /\ kind s = Subject
    /\ Forall (fun c => kind c = Comment \/ kind c = Blank) pre
    /\ Forall (fun c => kind c <> Subject) post.
Proof.
  intros H. destruct (subject_split_scan _ H) as (pre & s & post & E & Hs & Hp & Hq).
  pose proof (chunks_reclassified d) as HR. rewrite E in HR.
  apply Forall2_app_inv_l in HR. destruct HR as (pre' & r & H1 & H2 & ->).
  inversion H2 as [|s0 s' post0 post' Rs Rpost]; subst.
  exists pre', s', post'. repeat split.
  - destruct Rs as (_ & [->|(Hk & _)]); congruence.
  - revert Hp. apply Forall2_transfer with (R := reclassified); [|exact H1].
    intros x y (_ & [->|(Hk & _)]) Hx; [exact Hx|]. destruct Hx; congruence.
  - revert Hq. apply Forall2_transfer with (R := reclassified); [|exact Rpost].
    intros x y (_ & [->|(_ & ->)]) Hx; [exact Hx|discriminate].
Qed.

Lemma no_subject :
  hadSubjectLine (scan d (lineCount d)) = false ->
  Forall (fun c => kind c <> Subject) (getDocumentChunks d).
Proof.
  intros H. pose proof (inv_no_subject (scan_inv d (lineCount d)) H) as Hn.
  rewrite Forall_map in Hn. revert Hn.
  apply Forall2_transfer with (R := reclassified); [|apply chunks_reclassified].
  intros x y (_ & [->|(_ & ->)]) Hx; [tauto|discriminate].
Qed.

Lemma paragraph_line_gives_subject i :
  i < lineCount d -> lineKind d i = Paragraph ->
  hadSubjectLine (scan d (lineCount d)) = true.
Proof.
  intros Hi Hk. assert (Hn : 1 <= lineCount d) by lia.
  destruct (tiles_cover _ _ _ i (scan_tiles d _ Hn)) as (j & c & Hj & Hc); [lia|].
  apply nth_error_In in Hj.
  pose proof (scan_kinds d _ c Hn Hj i) as Hb. rewrite Hk in Hb.
  specialize (Hb ltac:(lia)). apply base_kind_Paragraph in Hb.
  destruct (hadSubjectLine (scan d (lineCount d))) eqn:E; [reflexivity|].
  pose proof (inv_no_subject (scan_inv d (lineCount d)) E) as H1.
  pose proof (inv_no_trailers (scan_inv d (lineCount d))) as H2.
  rewrite Forall_map, Forall_forall in H1, H2.
  specialize (H1 _ Hj). specialize (H2 _ Hj). tauto.
Qed.

End SubjectFacts.

(** ** [isTrailersChunk] and the scoring of the specification *)

Section TrailerFacts.

Import TrailerSpec.

Local Arguments Nat.mul : simpl never.

Lemma trace_without_continuation ts :
  Forall not_blank ts -> forall s, ~ In Continuation (trailer_trace ts s).
Proof.
  induction 1 as [|t ts Ht _ IH]; intros s; simpl; [tauto|].
  intros [H|H].
  - unfold trailer_branch in H.
    destruct (first_line s && prefix_after t s); [discriminate|].
    destruct (REGEX_TRAILER_CONT t) eqn:E.
    + apply trailer_cont_is_blank in E. unfold not_blank in Ht. congruence.
    + rewrite andb_false_r in H.
      destruct (REGEX_TRAILER t); [discriminate|].
      destruct (negb (prefix_after t s)); discriminate.
  - destruct (trailer_body t s) as [s'|b]; [exact (IH s' H)|exact H].
Qed.

Lemma score_not_blank b ts : Forall not_blank ts -> score b ts = score false ts.
Proof.
  intros H. destruct H as [|t ts Ht _]; [reflexivity|].
  simpl. unfold entirely_whitespace. unfold not_blank, REGEX_BLANK in Ht.
  rewrite Ht, andb_false_r. reflexivity.
Qed.

(** Behind the first line: the loop against the scores of the lines
    that are left. *)
Lemma trailer_loop_scored ts :
  Forall not_blank ts ->
  forall s, first_line s = false ->
    trailer_loop ts s
    = let (tc, nc) := score false ts in
      if recognized_prefix s
      then (non_trailers s + nc =? 0) && (0 <? trailers s + tc)
           || (non_trailers s + nc <=? 3 * (trailers s + tc))
      else (nc =? 0) && (non_trailers s =? 0) && (0 <? trailers s + tc).
Proof.
  induction 1 as [|t ts Ht Hts IH]; intros s Hf.
  - simpl. unfold trailer_verdict. rewrite !Nat.add_0_r.
    destruct (recognized_prefix s); simpl; [reflexivity|apply orb_false_r].
  - simpl. unfold trailer_body, trailer_branch, prefix_after. rewrite Hf. simpl.
    unfold entirely_whitespace, is_trailer_line.
    assert (Hc : REGEX_TRAILER_CONT t = false).
    { destruct (REGEX_TRAILER_CONT t) eqn:E; [|reflexivity].
      apply trailer_cont_is_blank in E. unfold not_blank in Ht. congruence. }
    rewrite Hc, andb_false_r.
    destruct (REGEX_TRAILER t).
    + rewrite IH by reflexivity. rewrite (score_not_blank true) by exact Hts.
      destruct (score false ts) as [tc nc]. simpl.
      rewrite !Nat.add_succ_r. reflexivity.
    + destruct (recognized_prefix s) eqn:Ep; simpl.
      * rewrite IH by reflexivity. simpl.
        destruct (score false ts) as [tc nc]. rewrite !Nat.add_succ_r. reflexivity.
      * destruct (score false ts) as [tc nc]. reflexivity.
Qed.

(** The loop of [isTrailersChunk] decides what the specification
    describes, on lines that are not blank. *)
Lemma trailer_loop_spec ts :
  Forall not_blank ts ->
  (trailer_loop ts trailer_init = true <-> is_trailers_block ts).
Proof.
  intros H. destruct H as [|t ts Ht Hts].
  - simpl. unfold is_trailers_block. simpl. split; [discriminate|].
    intros [(_ & H)|(H & _)]; [lia|discriminate].
  - unfold is_trailers_block, counts.
    destruct (has_recognized_prefix (t :: ts)) eqn:Ep.
    + assert (E : trailer_loop (t :: ts) trailer_init
                  = trailer_loop ts (mkTrailerScan false true 1 0 false)).
      { simpl in *. unfold trailer_body, trailer_branch, prefix_after. simpl.
        rewrite Ep. reflexivity. }
      rewrite E, trailer_loop_scored by auto.
      rewrite (score_not_blank (is_trailer_line t)) by exact Hts.
      destruct (score false ts) as [tc nc]. simpl recognized_prefix.
      cbv iota. simpl non_trailers. simpl trailers.
      rewrite orb_true_iff, andb_true_iff, Nat.eqb_eq, Nat.ltb_lt, Nat.leb_le.
      split; intros [H|H]; [left|right|left|right]; try split; try lia; auto.
    + assert (E : trailer_loop (t :: ts) trailer_init
                  = trailer_loop (t :: ts) (mkTrailerScan false false 0 0 false)).
      { simpl in *. unfold trailer_body, trailer_branch, prefix_after. simpl.
        rewrite Ep. reflexivity. }
      rewrite E, trailer_loop_scored by (auto; constructor; auto).
      destruct (score false (t :: ts)) as [tc nc]. simpl recognized_prefix.
      cbv iota. simpl non_trailers. simpl trailers.
      rewrite !andb_true_iff, Nat.eqb_eq, Nat.ltb_lt.
      split; [intros ((H1 & _) & H2); left; lia|].
      intros [H|(H & _)]; [|discriminate]. repeat split; try lia; reflexivity.
Qed.

(** Lines that are no trailers all count on the other side. *)
Lemma score_prose b ts :
  Forall not_blank ts -> Forall (fun t => REGEX_TRAILER t = false) ts ->
  score b ts = (0, length ts).
Proof.
  intros H. revert b. induction H as [|t ts Ht _ IH]; intros b Hp; [reflexivity|].
  inversion Hp as [|? ? Hp1 Hp2]; subst. simpl.
  unfold entirely_whitespace, is_trailer_line. unfold not_blank, REGEX_BLANK in Ht.
  rewrite Ht, andb_false_r, Hp1, IH by exact Hp2. reflexivity.
Qed.

Lemma prefix_and_prose p rest :
  Forall not_blank rest ->
  has_recognized_prefix (p :: rest) = true ->
  Forall (fun t => REGEX_TRAILER t = false) rest ->
  (is_trailers_block (p :: rest) <-> length rest <= 3).
Proof.
  intros Hn Hp Hr. unfold is_trailers_block, counts. rewrite Hp.
  rewrite score_prose by assumption. lia.
Qed.

End TrailerFacts.

Section LastParagraph.

Variable d : TextDocument.

Lemma paragraph_chunk_lines c :
  In c (chunks (scan d (lineCount d))) -> kind c = Paragraph ->
  1 <= lineCount d /\ Forall not_blank (chunk_lines d (range c)).
Proof.
  intros Hin Hk.
  assert (Hn : 1 <= lineCount d).
  { destruct (lineCount d) eqn:E; [|lia]. simpl in Hin.
    destruct Hin as [<-|[]]. discriminate. }
  split; [exact Hn|]. apply chunk_lines_Forall. intros i Hi.
  pose proof (scan_kinds d _ c Hn Hin i) as Hb. rewrite Hk in Hb.
  unfold startLine, endLine in Hb. specialize (Hb ltac:(lia)).
  symmetry in Hb. apply lineKind_Paragraph in Hb. apply Hb.
Qed.

(** [isTrailersChunk] only reads lines of the document. *)
Lemma last_paragraph_in_range i c :
  lastParagraph (chunks (scan d (lineCount d))) = Some (i, c) ->
  startLine c <= endLine c /\ endLine c < lineCount d.
Proof.
  intros H. apply lastParagraph_Some in H. destruct H as (Hn & Hk & _).
  apply nth_error_In in Hn.
  destruct (paragraph_chunk_lines c Hn Hk) as (H1 & _).
  destruct (tiles_In _ _ _ _ (scan_tiles d _ H1) Hn). lia.
Qed.

(** What [getDocumentChunks] returns at the index of the last
    paragraph. *)
Lemma last_paragraph_result i c :
  lastParagraph (chunks (scan d (lineCount d))) = Some (i, c) ->
  nth_error (getDocumentChunks d) i
  = Some (mkChunk (range c) (if isTrailersChunk c d then Trailers else Paragraph)).
Proof.
  intros H. unfold getDocumentChunks, reclassify. rewrite H.
  apply lastParagraph_Some in H. destruct H as (Hn & Hk & _).
  destruct (isTrailersChunk c d).
  - apply set_kind_nth, Hn.
  - rewrite Hn. destruct c as [r k]. simpl in *. congruence.
Qed.

(** Without a chunk of kind Paragraph nothing is reclassified, and with
    one every other chunk stays as the loop left it. *)
Lemma no_paragraph_no_change :
  lastParagraph (chunks (scan d (lineCount d))) = None ->
  getDocumentChunks d = chunks (scan d (lineCount d)).
Proof. intros H. unfold getDocumentChunks, reclassify. rewrite H. reflexivity. Qed.

Lemma set_kind_elsewhere cs i j k :
  j <> i -> nth_error (set_kind i k cs) j = nth_error cs j.
Proof.
  revert i j. induction cs as [|x cs IH]; intros [|i] [|j] H; simpl; auto; lia.
Qed.

Lemma other_chunks_unchanged i c j :
  lastParagraph (chunks (scan d (lineCount d))) = Some (i, c) -> j <> i ->
  nth_error (getDocumentChunks d) j = nth_error (chunks (scan d (lineCount d))) j.
Proof.
  intros H Hj. unfold getDocumentChunks, reclassify. rewrite H.
  destruct (isTrailersChunk c d); [apply set_kind_elsewhere, Hj|reflexivity].
Qed.

End LastParagraph.

(** ** The edits of [formatGitCommitMessage] *)

Section EditFacts.

Variable d : TextDocument.

Lemma chunk_edit_Some c e :
  chunk_edit d c = Some e -> edit_range e = range c /\ edited (kind c) = true.
Proof.
  unfold chunk_edit. destruct (kind c); intros [= <-]; auto.
Qed.

Lemma chunk_edit_None c : chunk_edit d c = None -> edited (kind c) = false.
Proof. unfold chunk_edit. destruct (kind c); auto; discriminate. Qed.

Lemma edit_ranges cs :
  map edit_range (filter_defined (map (chunk_edit d) cs))
  = map range (filter (fun c => edited (kind c)) cs).
Proof.
  induction cs as [|c cs IH]; [reflexivity|]. simpl.
  destruct (chunk_edit d c) as [e|] eqn:E.
  - apply chunk_edit_Some in E. destruct E as (E1 & ->). simpl. congruence.
  - apply chunk_edit_None in E. rewrite E. exact IH.
Qed.

Lemma In_filter_defined (A : Type) (x : A) l :
  In x (filter_defined l) <-> In (Some x) l.
Proof.
  induction l as [|[y|] l IH]; simpl; [tauto| |].
  - rewrite IH. split; intros [H|H]; auto; left; congruence.
  - rewrite IH. split; [auto|intros [H|H]]; [discriminate|auto].
Qed.

Lemma In_edits e cs :
  In e (filter_defined (map (chunk_edit d) cs))
  <-> exists c, In c cs /\ chunk_edit d c = Some e.
Proof.
  rewrite In_filter_defined, in_map_iff. split; intros (c & H1 & H2); eauto.
Qed.

(** Two chunks of a document with the same range are one chunk. *)
Lemma chunks_same_range c c' :
  In c (getDocumentChunks d) -> In c' (getDocumentChunks d) ->
  range c = range c' -> c = c'.
Proof.
  intros Hc Hc' Hr. destruct (lineCount d) eqn:En.
  - rewrite (getDocumentChunks_no_line d En) in Hc, Hc'.
    destruct Hc as [<-|[]], Hc' as [<-|[]]. reflexivity.
  - assert (Hn : 1 <= lineCount d) by lia. pose proof (chunks_tiles d Hn) as Ht.
    pose proof (tiles_In _ _ _ _ Ht Hc) as Hb.
    apply In_nth_error in Hc, Hc'. destruct Hc as (j & Hj), Hc' as (k & Hk).
    assert (E : j = k).
    { apply (tiles_unique _ _ _ (startLine c) _ _ _ _ Ht Hj ltac:(lia) Hk).
      unfold startLine, endLine in *. rewrite <- Hr. lia. }
    subst k. congruence.
Qed.

End EditFacts.

(** ** Whitespace collapsing and wrapping *)

Section WrapFacts.

Lemma NL_is_space : is_space NL = true.
Proof. reflexivity. Qed.

Lemma SP_is_space : is_space SP = true.
Proof. reflexivity. Qed.

Lemma token_not_nl l : token l -> forallb not_nl l = true.
Proof.
  induction 1 as [|c l Hc _ IH]; [reflexivity|]. simpl. rewrite IH, andb_true_r.
  unfold not_nl. destruct (N.eqb c NL) eqn:E; [|reflexivity].
  apply N.eqb_eq in E. subst c. discriminate.
Qed.

Lemma single_spaced_not_nl s : single_spaced s -> forallb not_nl s = true.
Proof.
  induction s as [|c s IH]; [reflexivity|]. intros (Hc & Hs). simpl.
  rewrite IH, andb_true_r by exact Hs.
  unfold not_nl. destruct (N.eqb c NL) eqn:E; [|reflexivity].
  apply N.eqb_eq in E. subst c. destruct (Hc NL_is_space) as (H & _). discriminate.
Qed.

Lemma single_spaced_skipn n s : single_spaced s -> single_spaced (skipn n s).
Proof.
  revert s. induction n as [|n IH]; intros [|c s]; simpl; auto.
  intros (_ & H). auto.
Qed.

Lemma single_spaced_nth s k c :
  single_spaced s -> nth_error s k = Some c -> is_space c = true ->
  c = SP /\ no_leading_space (skipn (S k) s) /\ S k < length s.
Proof.
  revert s. induction k as [|k IH]; intros [|x s]; simpl; try discriminate.
  - intros (Hx & _) [= ->] Hc. destruct (Hx Hc) as (-> & Hn).
    destruct s; [contradiction|]. simpl. repeat split; auto. lia.
  - intros (_ & Hs) Hk Hc. destruct (IH _ Hs Hk Hc) as (H1 & H2 & H3).
    repeat split; auto. lia.
Qed.

(** *** [split_nl] *)

Lemma split_nl_line l : forallb not_nl l = true -> split_nl l = [l].
Proof.
  induction l as [|c l IH]; [reflexivity|]. simpl. unfold not_nl at 1.
  intros H. apply andb_true_iff in H. destruct H as (Hc & Hl).
  apply negb_true_iff in Hc. rewrite Hc, IH by exact Hl. reflexivity.
Qed.

Lemma split_nl_break l r :
  forallb not_nl l = true -> split_nl (l ++ NL :: r) = l :: split_nl r.
Proof.
  induction l as [|c l IH]; simpl.
  - reflexivity.
  - unfold not_nl at 1. intros H. apply andb_true_iff in H. destruct H as (Hc & Hl).
    apply negb_true_iff in Hc. rewrite Hc, IH by exact Hl. reflexivity.
Qed.

(** *** The match of the wrapping expression *)

Lemma wrap_match_upto_Some n s k :
  wrap_match_upto n s = Some k ->
  1 <= k <= n /\ wrap_group_ok k s = true.
Proof.
  induction n as [|n IH]; simpl; [discriminate|].
  destruct (wrap_group_ok (S n) s) eqn:E.
  - intros [= <-]. split; [lia|exact E].
  - intros H. destruct (IH H). split; [lia|assumption].
Qed.

Lemma wrap_match_upto_None n s :
  wrap_match_upto n s = None ->
  forall j, 1 <= j <= n -> wrap_group_ok j s = false.
Proof.
  induction n as [|n IH]; simpl; intros H j Hj; [lia|].
  destruct (wrap_group_ok (S n) s) eqn:E; [discriminate|].
  destruct (Nat.eq_dec j (S n)) as [->|Hne]; [exact E|]. apply IH; [exact H|lia].
Qed.

Lemma wrap_group_ok_true k s :
  wrap_group_ok k s = true ->
  exists c, nth_error s k = Some c /\ is_space c = true.
Proof.
  unfold wrap_group_ok. intros H. apply andb_true_iff in H. destruct H as (_ & H).
  destruct (nth_error s k) as [c|]; [|discriminate]. eauto.
Qed.

Lemma wrap_group_ok_false k s c :
  forallb not_nl s = true -> nth_error s k = Some c ->
  wrap_group_ok k s = false -> is_space c = false.
Proof.
  intros Hnl Hk H. unfold wrap_group_ok in H. rewrite Hk in H.
  assert (Hlt : k < length s) by (apply nth_error_Some; congruence).
  rewrite length_firstn, Nat.min_l, Nat.eqb_refl in H by lia.
  assert (Hf : forallb not_nl (firstn k s) = true).
  { rewrite forallb_forall in *. intros x Hx. apply Hnl.
    rewrite <- (firstn_skipn k s). apply in_or_app. auto. }
  rewrite Hf in H. exact H.
Qed.

Lemma wrap_match_Some s k :
  forallb not_nl s = true -> wrap_match s = Some k ->
  1 <= k <= 72 /\ 72 < length s
  /\ exists c, nth_error s k = Some c /\ is_space c = true.
Proof.
  intros Hnl. unfold wrap_match. destruct (wrap_lookahead s) eqn:El; [discriminate|].
  intros H. apply wrap_match_upto_Some in H. destruct H as (Hk & Hok).
  destruct (wrap_group_ok_true _ _ Hok) as (c & Hc & Hs).
  assert (Hlt : k < length s) by (apply nth_error_Some; congruence).
  repeat split; try lia; [|eauto].
  unfold wrap_lookahead in El. rewrite Hnl, andb_true_r in El.
  apply andb_false_iff in El. destruct El as [El|El].
  - apply Nat.leb_gt in El. lia.
  - apply Nat.leb_gt in El. lia.
Qed.

Lemma wrap_match_None s :
  forallb not_nl s = true -> wrap_match s = None ->
  length s <= 72
  \/ forall j c, 1 <= j <= 72 -> nth_error s j = Some c -> is_space c = false.
Proof.
  intros Hnl. unfold wrap_match. destruct (wrap_lookahead s) eqn:El.
  - intros _. left. unfold wrap_lookahead in El.
    apply andb_true_iff in El. destruct El as (El & _).
    apply andb_true_iff in El. destruct El as (_ & El). apply Nat.leb_le, El.
  - intros H. right. intros j c Hj Hc.
    apply (wrap_group_ok_false j s c Hnl Hc), (wrap_match_upto_None _ _ H), Hj.
Qed.

(** Short input is left as it is. *)
Lemma replace_wrap_short fuel s :
  length s <= 72 -> forallb not_nl s = true -> replace_wrap_fuel fuel s = s.
Proof.
  revert s. induction fuel as [|fuel IH]; intros s Hlen Hnl; [reflexivity|].
  destruct s as [|c r]; [reflexivity|]. cbn [replace_wrap_fuel].
  assert (E : wrap_match (c :: r) = None).
  { unfold wrap_match, wrap_lookahead. rewrite Hnl.
    replace (1 <=? length (c :: r)) with true by (symmetry; apply Nat.leb_le; simpl; lia).
    replace (length (c :: r) <=? 72) with true by (symmetry; apply Nat.leb_le; lia).
    reflexivity. }
  rewrite E. f_equal. apply IH; [simpl in Hlen; lia|].
  simpl in Hnl. apply andb_true_iff in Hnl. tauto.
Qed.

(** The fuel of [replace_wrap] is enough: more of it changes nothing. *)
Lemma replace_wrap_fuel_enough f1 f2 s :
  length s <= f1 -> length s <= f2 ->
  replace_wrap_fuel f1 s = replace_wrap_fuel f2 s.
Proof.
  revert f2 s. induction f1 as [|f1 IH]; intros f2 s H1 H2.
  - destruct s; [|simpl in H1; lia]. destruct f2; reflexivity.
  - destruct s as [|c r]; [destruct f2; reflexivity|].
    destruct f2 as [|f2]; [simpl in H2; lia|]. cbn [replace_wrap_fuel].
    simpl in H1, H2.
    destruct (wrap_match (c :: r)) as [k|]; f_equal; [f_equal|]; apply IH;
      try lia; rewrite length_skipn; simpl; lia.
Qed.

Lemma firstn_token n l :
  (forall j c, j < n -> nth_error l j = Some c -> is_space c = false) ->
  token (firstn n l).
Proof.
  revert l. induction n as [|n IH]; intros [|x l] H; simpl; try constructor.
  - apply (H 0 x); [lia|reflexivity].
  - apply IH. intros j c Hj Hc. apply (H (S j) c); [lia|exact Hc].
Qed.

Lemma token_firstn_nth n l j c :
  token (firstn n l) -> j < n -> nth_error l j = Some c -> is_space c = false.
Proof.
  revert l j. induction n as [|n IH]; intros [|x l] [|j] H Hj Hc;
    simpl in *; try lia; try discriminate; inversion H; subst.
  - congruence.
  - apply (IH l j); auto. lia.
Qed.

Lemma nth_error_cut (A : Type) (l : list A) k x :
  nth_error l k = Some x -> firstn k l ++ x :: skipn (S k) l = l.
Proof.
  revert l. induction k as [|k IH]; intros [|y l]; simpl; try discriminate.
  - congruence.
  - intros H. rewrite IH; auto.
Qed.

Lemma forallb_firstn (A : Type) (p : A -> bool) n l :
  forallb p l = true -> forallb p (firstn n l) = true.
Proof.
  rewrite !forallb_forall. intros H x Hx. apply H.
  rewrite <- (firstn_skipn n l). apply in_or_app. auto.
Qed.

(** The lines of the wrapped text. [acc] is the part of the current
    line that the search has already passed without a match: it is
    empty at the start of a line, and otherwise the start of a token
    that goes on for 72 code units at least. *)
Lemma wrap_lines fuel :
  forall s acc,
    length s <= fuel -> single_spaced s -> token acc ->
    (acc = [] -> no_leading_space s) ->
    (acc <> [] -> 72 <= length s /\ token (firstn 72 s)) ->
    Forall fits (split_nl (acc ++ replace_wrap_fuel fuel s)).
Proof.
  assert (Hend : forall acc,
             token acc -> (acc <> [] -> 72 <= 0 /\ token (@nil char)) ->
             Forall fits (split_nl (acc ++ []))).
  { intros acc Hacc H1. rewrite app_nil_r, split_nl_line by (apply token_not_nl, Hacc).
    constructor; [|constructor]. destruct acc; [left; simpl; lia|].
    destruct H1 as (H1 & _); [discriminate|lia]. }
  assert (Hshort : forall s acc f,
             length s <= 72 -> single_spaced s -> token acc ->
             (acc <> [] -> 72 <= length s /\ token (firstn 72 s)) ->
             Forall fits (split_nl (acc ++ replace_wrap_fuel f s))).
  { intros s acc f Hlen Hss Hacc H1.
    pose proof (single_spaced_not_nl _ Hss) as Hnl.
    rewrite replace_wrap_short by assumption.
    rewrite split_nl_line
      by (rewrite forallb_app, (token_not_nl _ Hacc), Hnl; reflexivity).
    constructor; [|constructor]. destruct acc as [|a acc]; [left; exact Hlen|].
    destruct H1 as (H1 & H2); [discriminate|].
    rewrite firstn_all2 in H2 by lia. right. split.
    - rewrite length_app. simpl. lia.
    - apply Forall_app. auto. }
  induction fuel as [|fuel IH]; intros s acc Hlen Hss Hacc H0 H1.
  - destruct s; [|simpl in Hlen; lia]. apply Hend; auto.
  - destruct (le_lt_dec (length s) 72) as [Hle|Hgt]; [apply Hshort; auto|].
    destruct s as [|c r]; [simpl in Hgt; lia|]. cbn [replace_wrap_fuel].
    pose proof (single_spaced_not_nl _ Hss) as Hnl.
    destruct (wrap_match (c :: r)) as [k|] eqn:Em.
    + destruct (wrap_match_Some _ _ Hnl Em) as (Hk & _ & x & Hx & Hsx).
      destruct (single_spaced_nth _ _ _ Hss Hx Hsx) as (-> & Hlead & Hlt).
      rewrite app_assoc, split_nl_break
        by (rewrite forallb_app, (token_not_nl _ Hacc), forallb_firstn; auto).
      constructor.
      * destruct acc as [|a acc].
        -- left. simpl app. rewrite length_firstn. lia.
        -- destruct H1 as (_ & H1); [discriminate|].
           assert (Ek : k = 72).
           { destruct (Nat.eq_dec k 72) as [E|E]; [exact E|].
             pose proof (token_firstn_nth 72 _ k SP H1 ltac:(lia) Hx).
             discriminate. }
           subst k. right. split.
           ++ rewrite length_app, length_firstn.
              change (length (a :: acc)) with (S (length acc)). lia.
           ++ apply Forall_app. auto.
      * apply (IH _ []).
        -- rewrite length_skipn. simpl in Hlen |- *. lia.
        -- apply single_spaced_skipn, Hss.
        -- constructor.
        -- intros _. exact Hlead.
        -- intros H. contradiction.
    + destruct (wrap_match_None _ Hnl Em) as [Hle|Hns]; [lia|].
      assert (Hc : is_space c = false).
      { destruct acc as [|a acc]; [apply H0; reflexivity|].
        destruct H1 as (_ & H1); [discriminate|]. inversion H1; assumption. }
      change (c :: replace_wrap_fuel fuel r) with ([c] ++ replace_wrap_fuel fuel r).
      rewrite app_assoc. apply IH.
      * simpl in Hlen. lia.
      * apply Hss.
      * apply Forall_app. split; [exact Hacc|]. constructor; [exact Hc|constructor].
      * intros E. apply app_eq_nil in E. destruct E. discriminate.
      * intros _. split; [simpl in Hgt; lia|].
        apply firstn_token. intros j x Hj Hx. apply (Hns (S j) x); [lia|exact Hx].
Qed.

(** The wrapped text is the text with newlines for some of its spaces. *)
Lemma wrap_breaks fuel :
  forall s, single_spaced s -> Forall2 kept_or_broken s (replace_wrap_fuel fuel s).
Proof.
  assert (Hrefl : forall l, Forall2 kept_or_broken l l)
    by (induction l; constructor; auto; left; reflexivity).
  induction fuel as [|fuel IH]; intros s Hss; [apply Hrefl|].
  destruct s as [|c r]; [constructor|]. cbn [replace_wrap_fuel].
  pose proof (single_spaced_not_nl _ Hss) as Hnl.
  destruct (wrap_match (c :: r)) as [k|] eqn:Em.
  - destruct (wrap_match_Some _ _ Hnl Em) as (_ & _ & x & Hx & Hsx).
    destruct (single_spaced_nth _ _ _ Hss Hx Hsx) as (-> & _ & _).
    assert (H : Forall2 kept_or_broken
                  (firstn k (c :: r) ++ SP :: skipn (S k) (c :: r))
                  (firstn k (c :: r) ++ NL :: replace_wrap_fuel fuel (skipn (S k) (c :: r)))).
    { apply Forall2_app; [apply Hrefl|]. constructor; [right; auto|].
      apply IH, single_spaced_skipn, Hss. }
    rewrite (nth_error_cut _ _ _ _ Hx) in H. exact H.
  - constructor; [left; reflexivity|]. apply IH, Hss.
Qed.

(** *** Collapsing and trimming give tidy text *)

Lemma replace_spaces_loose s b :
  loose (replace_spaces_from b s)
  /\ (b = true -> no_leading_space (replace_spaces_from b s)).
Proof.
  revert b. induction s as [|c s IH]; intros b; simpl; [auto|].
  destruct (is_space c) eqn:Ec.
  - destruct (IH true) as (H1 & H2). destruct b; [auto|].
    split; [|discriminate]. simpl. split; [|exact H1].
    intros _. split; [reflexivity|].
    specialize (H2 eq_refl). destruct (replace_spaces_from true s); auto.
  - destruct (IH false) as (H1 & _). simpl. split; [|auto].
    split; [congruence|exact H1].
Qed.

Lemma dropWhile_split p (l : text) :
  exists w, l = w ++ dropWhile p l /\ forallb p w = true
            /\ match dropWhile p l with [] => True | c :: _ => p c = false end.
Proof.
  induction l as [|c l (w & E & Hw & Hd)]; simpl.
  - exists []. auto.
  - destruct (p c) eqn:Ec.
    + exists (c :: w). simpl. rewrite Ec, Hw. repeat split; auto. congruence.
    + exists []. simpl. rewrite Ec. auto.
Qed.

Lemma loose_dropWhile p s : loose s -> loose (dropWhile p s).
Proof.
  induction s as [|c s IH]; simpl; [auto|]. intros H.
  destruct (p c); [apply IH, H|exact H].
Qed.

Lemma loose_prefix a w :
  loose (a ++ w) ->
  match rev a with [] => True | c :: _ => is_space c = false end ->
  single_spaced a.
Proof.
  induction a as [|c a IH]; simpl; [auto|]. intros (Hc & Hl) Hlast.
  split.
  - intros Hs. destruct (Hc Hs) as (-> & Hn). split; [reflexivity|].
    destruct a as [|c' a]; [|exact Hn].
    simpl in Hlast. rewrite Hs in Hlast. discriminate.
  - apply IH; [exact Hl|]. destruct a as [|c' a]; [simpl; auto|].
    simpl in *. destruct (rev a ++ [c']) eqn:E; [destruct (rev a); discriminate|].
    simpl in Hlast. exact Hlast.
Qed.

Lemma trim_tidy s : loose s -> tidy (trim s).
Proof.
  intros Hl. unfold trim.
  destruct (dropWhile_split is_space s) as (w & _ & _ & Hhead).
  pose proof (loose_dropWhile is_space _ Hl) as Hl'.
  set (u := dropWhile is_space s) in *.
  destruct (dropWhile_split is_space (rev u)) as (v & E & _ & Hlast).
  set (a := rev (dropWhile is_space (rev u))) in *.
  assert (Eu : u = a ++ rev v).
  { subst a. rewrite <- rev_app_distr, <- E, rev_involutive. reflexivity. }
  split.
  - rewrite Eu in Hhead. destruct a; simpl in *; auto.
  - apply (loose_prefix a (rev v)); [rewrite <- Eu; exact Hl'|].
    subst a. rewrite rev_involutive. exact Hlast.
Qed.

Lemma flat_tidy t : tidy (trim (replace_spaces t)).
Proof. apply trim_tidy, (replace_spaces_loose t false). Qed.

End WrapFacts.

(** * The properties of the specification *)

(** C1. The last chunk of kind Paragraph that the loop of
    [getDocumentChunks] produces keeps its range and becomes Trailers if
    and only if its lines, scored as the specification describes, give
    [nonTrailerCount = 0] and [trailerCount > 0], or a recognized prefix
    and [3 * trailerCount >= nonTrailerCount]; otherwise it stays
    Paragraph. With a recognized prefix on its first line and only lines
    that are no trailers behind it, it becomes Trailers exactly when at
    most three lines follow: with three it does, with four it does not. *)
Theorem last_paragraph_trailers_iff_score (d : TextDocument) (i : nat)
    (c : GitCommitChunk) :
  lastParagraph (chunks (scan d (lineCount d))) = Some (i, c) ->
  exists c',
    nth_error (getDocumentChunks d) i = Some c'
    /\ range c' = range c
    /\ (kind c' = Trailers \/ kind c' = Paragraph)
    /\ (kind c' = Trailers
        <-> TrailerSpec.is_trailers_block (chunk_lines d (range c)))
    /\ forall p rest,
         chunk_lines d (range c) = p :: rest ->
         TrailerSpec.has_recognized_prefix (p :: rest) = true ->
         Forall (fun t => REGEX_TRAILER t = false) rest ->
         (kind c' = Trailers <-> length rest <= 3)
         /\ (length rest = 3 -> kind c' = Trailers)
         /\ (length rest = 4 -> kind c' = Paragraph).
Proof.
  intros H. pose proof (last_paragraph_result d i c H) as Hn.
  destruct (lastParagraph_Some _ _ _ H) as (Hi & Hk & _).
  destruct (paragraph_chunk_lines d c (nth_error_In _ _ Hi) Hk) as (_ & Hnb).
  pose proof (trailer_loop_spec _ Hnb) as Hspec. fold (isTrailersChunk c d) in Hspec.
  eexists. split; [exact Hn|]. simpl.
  assert (Hiff : (if isTrailersChunk c d then Trailers else Paragraph) = Trailers
                 <-> TrailerSpec.is_trailers_block (chunk_lines d (range c))).
  { rewrite <- Hspec. destruct (isTrailersChunk c d); split; congruence. }
  split; [reflexivity|]. split; [destruct (isTrailersChunk c d); auto|].
  split; [exact Hiff|].
  intros p rest Hlines Hprefix Hprose.
  assert (Hthree : (if isTrailersChunk c d then Trailers else Paragraph) = Trailers
                   <-> length rest <= 3).
  { rewrite Hiff, Hlines. apply prefix_and_prose; auto.
    rewrite Hlines in Hnb. inversion Hnb; assumption. }
  split; [exact Hthree|]. split.
  - intros H3. apply Hthree. lia.
  - intros H4. destruct (isTrailersChunk c d); [|reflexivity].
    assert (length rest <= 3) by (apply Hthree; reflexivity). lia.
Qed.

Lemma last_paragraph_trailers_iff_score_witness :
  (exists c', nth_error (getDocumentChunks Examples.three_prose) 2 = Some c'
              /\ kind c' = Trailers)
  /\ (exists c', nth_error (getDocumentChunks Examples.four_prose) 2 = Some c'
                 /\ kind c' = Paragraph).
Proof.
  split.
  - destruct (last_paragraph_trailers_iff_score Examples.three_prose 2
                (mkChunk (mkRange (mkPosition 2 0) (mkPosition 5 5)) Paragraph)
                eq_refl) as (c' & H1 & _ & _ & _ & H5).
    exists c'. split; [exact H1|].
    refine (proj1 (proj2 (H5 _ _ eq_refl eq_refl _)) eq_refl).
    repeat constructor.
  - destruct (last_paragraph_trailers_iff_score Examples.four_prose 2
                (mkChunk (mkRange (mkPosition 2 0) (mkPosition 6 4)) Paragraph)
                eq_refl) as (c' & H1 & _ & _ & _ & H5).
    exists c'. split; [exact H1|].
    refine (proj2 (proj2 (H5 _ _ eq_refl eq_refl _)) eq_refl).
    repeat constructor.
Defined.

(** C2. For every document with at least one line the chunks of
    [getDocumentChunks] are ordered and contiguous (the line behind the end
    of a chunk is the start of the next), the first chunk starts at line 0,
    the last chunk ends at the last line, no chunk is empty, and every line
    of the document lies in exactly one chunk. *)
Theorem chunks_partition_lines (d : TextDocument) :
  1 <= lineCount d ->
  let cs := getDocumentChunks d in
  (forall i c1 c2,
      nth_error cs i = Some c1 -> nth_error cs (S i) = Some c2 ->
      endLine c1 + 1 = startLine c2)
  /\ (exists c, nth_error cs 0 = Some c /\ startLine c = 0)
  /\ (exists c, nth_error cs (length cs - 1) = Some c
                /\ endLine c = lineCount d - 1)
  /\ (forall c, In c cs -> startLine c <= endLine c)
  /\ (forall i, i < lineCount d ->
        exists j c,
          nth_error cs j = Some c /\ startLine c <= i <= endLine c
          /\ forall j' c',
               nth_error cs j' = Some c' -> startLine c' <= i <= endLine c' ->
               j' = j).
Proof.
  intros Hn cs. pose proof (chunks_tiles d Hn) as Ht. fold cs in Ht.
  split; [|split; [|split; [|split]]].
  - intros i c1 c2. apply tiles_adjacent with (1 := Ht).
  - destruct cs as [|c cs']; [simpl in Ht; lia|].
    exists c. split; [reflexivity|]. apply tiles_head in Ht. exact Ht.
  - destruct (tiles_last_nth _ _ _ Ht) as (c & Hc & He); [lia|].
    exists c. split; [exact Hc|lia].
  - intros c Hc. apply (tiles_In _ _ _ _ Ht Hc).
  - intros i Hi. destruct (tiles_cover _ _ _ i Ht) as (j & c & Hj & Hc); [lia|].
    exists j, c. repeat split; try tauto.
    intros j' c' Hj' Hc'. apply (tiles_unique _ _ _ i _ _ _ _ Ht Hj' Hc' Hj Hc).
Qed.

Lemma chunks_partition_lines_witness :
  1 <= lineCount Examples.message
  /\ exists c, nth_error (getDocumentChunks Examples.message)
                 (length (getDocumentChunks Examples.message) - 1) = Some c
               /\ endLine c = lineCount Examples.message - 1.
Proof.
  assert (H : 1 <= lineCount Examples.message) by (vm_compute; repeat constructor).
  split; [exact H|].
  exact (proj1 (proj2 (proj2 (chunks_partition_lines Examples.message H)))).
Defined.

(** C3. When a cut line is followed, at a later line, by a line that does
    not match the comment pattern, the diff has begun at that line and
    never ends: every line from there on is classified Diff whatever its
    text, and every chunk of [getDocumentChunks] that reaches that line or
    lies behind it has kind Diff. *)
Theorem diff_extends_to_end (d : TextDocument) (c n : nat) :
  c < n -> n < lineCount d ->
  REGEX_CUT_LINE (lineAt d c) = true ->
  REGEX_SPLIT (lineAt d n) = false ->
  (forall i, n <= i < lineCount d ->
     areInDiff (scan d (S i)) = true /\ lineKind d i = Diff)
  /\ (forall ch, In ch (getDocumentChunks d) -> n <= endLine ch -> kind ch = Diff)
  /\ (forall i, n <= i < lineCount d ->
        exists ch, In ch (getDocumentChunks d)
                   /\ startLine ch <= i <= endLine ch /\ kind ch = Diff).
Proof.
  intros Hcn Hn Hcut Hs.
  assert (Hd : forall i, n <= i -> areInDiff (scan d (S i)) = true /\ lineKind d i = Diff)
    by (intros i Hi; apply (lineKind_in_diff d c n i); auto).
  assert (Hch : forall ch, In ch (getDocumentChunks d) -> n <= endLine ch -> kind ch = Diff).
  { intros ch Hin Hle. assert (H1 : 1 <= lineCount d) by lia.
    pose proof (chunks_kinds d ch H1 Hin (endLine ch)) as Hk.
    pose proof (tiles_In _ _ _ _ (chunks_tiles d H1) Hin) as Hb.
    rewrite (proj2 (Hd _ Hle)) in Hk. apply base_kind_Diff, Hk. lia. }
  split; [intros i Hi; apply Hd; lia|]. split; [exact Hch|].
  intros i Hi.
  destruct (tiles_cover _ _ _ i (chunks_tiles d ltac:(lia))) as (j & ch & Hj & Hc); [lia|].
  apply nth_error_In in Hj. exists ch. repeat split; try tauto.
  apply Hch; [exact Hj|lia].
Qed.

Lemma diff_extends_to_end_witness :
  exists ch, In ch (getDocumentChunks Examples.verbose_message)
             /\ startLine ch <= 4 <= endLine ch /\ kind ch = Diff.
Proof.
  refine (proj2 (proj2 (diff_extends_to_end Examples.verbose_message 1 3 _ _ _ _)) 4 _);
    [vm_compute; repeat constructor | vm_compute; repeat constructor
     | reflexivity | reflexivity | vm_compute; repeat constructor].
Defined.

(** C4. No document yields more than one chunk of kind Subject. A document
    with a line that is neither blank nor a comment and has no cut line
    before it yields exactly one: it is the first chunk of lines of kind
    Paragraph, so only Comment and Blank chunks come before it and its
    first line is the first line of kind Paragraph of the document. *)
Theorem subject_is_unique_and_first (d : TextDocument) :
  count_kind Subject (getDocumentChunks d) <= 1
  /\ forall i,
       i < lineCount d ->
       REGEX_SPLIT (lineAt d i) = false ->
       (forall j, j < i -> REGEX_CUT_LINE (lineAt d j) = false) ->
       count_kind Subject (getDocumentChunks d) = 1
       /\ exists pre s post,
            getDocumentChunks d = pre ++ s :: post
            /\ kind s = Subject
            /\ Forall (fun c => kind c = Comment \/ kind c = Blank) pre
            /\ Forall (fun c => kind c <> Subject) post
            /\ lineKind d (startLine s) = Paragraph
            /\ forall j, j < startLine s -> lineKind d j <> Paragraph.
Proof.
  assert (Hone : hadSubjectLine (scan d (lineCount d)) = true ->
                 count_kind Subject (getDocumentChunks d) = 1).
  { intros H. destruct (subject_split d H) as (pre & s & post & -> & Hs & Hp & Hq).
    rewrite count_kind_app. change (s :: post) with ([s] ++ post).
    rewrite count_kind_app, (count_kind_none _ _ Hq), count_kind_none.
    - unfold count_kind. simpl. rewrite Hs. reflexivity.
    - revert Hp. apply Forall_impl. intros c [-> | ->]; discriminate. }
  split.
  - destruct (hadSubjectLine (scan d (lineCount d))) eqn:E.
    + rewrite Hone; auto.
    + rewrite count_kind_none; [lia|]. apply no_subject, E.
  - intros i Hi Hs Hcut.
    assert (Hsub : hadSubjectLine (scan d (lineCount d)) = true)
      by (apply (paragraph_line_gives_subject d i Hi), lineKind_before_cut; auto).
    split; [auto|].
    destruct (subject_split d Hsub) as (pre & s & post & E & Hk & Hp & Hq).
    exists pre, s, post. repeat split; auto.
    + assert (Hn : 1 <= lineCount d) by lia.
      assert (Hin : In s (getDocumentChunks d)) by (rewrite E; apply in_elt).
      pose proof (chunks_kinds d s Hn Hin (startLine s)) as Hb.
      pose proof (tiles_In _ _ _ _ (chunks_tiles d Hn) Hin) as Hr.
      rewrite Hk in Hb. symmetry. apply Hb. lia.
    + intros j Hj Hpar. assert (Hn : 1 <= lineCount d) by lia.
      pose proof (chunks_tiles d Hn) as Ht. rewrite E in Ht.
      apply tiles_app in Ht. destruct Ht as (m & Ht1 & Ht2).
      apply tiles_head in Ht2. subst m.
      destruct (tiles_cover _ _ _ j Ht1) as (k & c & Hc & Hjc); [lia|].
      apply nth_error_In in Hc.
      assert (Hin : In c (getDocumentChunks d)) by (rewrite E; apply in_or_app; auto).
      pose proof (chunks_kinds d c Hn Hin j) as Hb. rewrite Hpar in Hb.
      rewrite Forall_forall in Hp. destruct (Hp c Hc) as [Hc'|Hc'];
        rewrite Hc' in Hb; specialize (Hb ltac:(lia)); discriminate.
Qed.

Lemma subject_is_unique_and_first_witness :
  count_kind Subject (getDocumentChunks Examples.commented_message) = 1.
Proof.
  refine (proj1 (proj2 (subject_is_unique_and_first Examples.commented_message) 2 _ _ _)).
  - vm_compute. repeat constructor.
  - reflexivity.
  - intros j Hj. destruct j as [|[|j]]; [reflexivity|reflexivity|].
    exfalso. apply Nat.succ_lt_mono, Nat.succ_lt_mono in Hj. inversion Hj.
Defined.

(** C5. Whatever the text of a paragraph, every line of the formatted
    paragraph has at most 72 code units or is a single token, free of
    whitespace, that is longer; and the formatted paragraph is the
    collapsed and trimmed text, which holds no newline, with newlines in
    the place of some of its spaces and every other code unit as it was, so
    no token is split. *)
Theorem paragraph_lines_fit (t : text) :
  let flat := trim (replace_spaces t) in
  let out := formatParagraphChunk t in
  Forall fits (split_nl out)
  /\ Forall2 kept_or_broken flat out
  /\ ~ In NL flat.
Proof.
  intros flat out. destruct (flat_tidy t) as (Hlead & Hss). fold flat in Hlead, Hss.
  split; [|split].
  - apply (wrap_lines (length flat) flat []); auto.
    + constructor.
    + intros H. contradiction.
  - apply wrap_breaks, Hss.
  - intros Hin. pose proof (single_spaced_not_nl _ Hss) as Hnl.
    rewrite forallb_forall in Hnl. specialize (Hnl _ Hin). discriminate.
Qed.

(** C6, on the code: the whole-document formatter is not idempotent. It
    pushes the buffer in front of every comment or blank line, also when
    the buffer is empty, and so puts an empty line in front of a comment
    that opens the message; formatting the result again puts another one
    there. The text of two comment lines becomes an empty line and the two
    comments, and that text becomes two empty lines and the two comments,
    both with the [lastIndex] the first call left behind and with the one
    of a fresh module. *)
Theorem formatting_twice_differs :
  let once := PlainText.formatGitCommitMessage PlainText.fresh Examples.two_comments in
  fst once = NL :: str "#a" ++ NL :: str "#b"
  /\ fst (PlainText.formatGitCommitMessage (snd once) (fst once))
     = NL :: NL :: str "#a" ++ NL :: str "#b"
  /\ fst (PlainText.formatGitCommitMessage PlainText.fresh (fst once))
     = NL :: NL :: str "#a" ++ NL :: str "#b".
Proof. repeat split. Qed.

(** C7, as the code has it: a chunk of kind Trailers does get an edit. *)
Lemma trailers_chunk_gets_an_edit :
  exists c e,
    In c (getDocumentChunks Examples.signed_message)
    /\ kind c = Trailers
    /\ In e (Formatter.formatGitCommitMessage Examples.signed_message)
    /\ edit_range e = range c
    /\ newText e = str "Signed-off-by: A <a@x.com>".
Proof.
  exists (mkChunk (mkRange (mkPosition 2 0) (mkPosition 2 26)) Trailers).
  exists (mkTextEdit (mkRange (mkPosition 2 0) (mkPosition 2 26))
            (str "Signed-off-by: A <a@x.com>")).
  repeat split; vm_compute; auto.
Qed.

(** C7, amended. [formatGitCommitMessage] returns, in the order of the
    chunks, one edit for each chunk of kind Subject, Paragraph, Trailers
    and Blank and nothing else: the subject is replaced by its formatted
    text, a paragraph by its wrapped text, the trailers by their own text
    and a blank chunk by the empty string; no edit has the range of a chunk
    of kind Comment or Diff. *)
Theorem edits_follow_chunk_kinds (d : TextDocument) :
  let edits := Formatter.formatGitCommitMessage d in
  map edit_range edits
  = map range (filter (fun c => edited (kind c)) (getDocumentChunks d))
  /\ forall c,
       In c (getDocumentChunks d) ->
       match kind c with
       | Subject =>
           In (mkTextEdit (range c) (formatSubjectChunk (getText d (range c)))) edits
       | Paragraph =>
           In (mkTextEdit (range c) (formatParagraphChunk (getText d (range c)))) edits
       | Trailers => In (mkTextEdit (range c) (getText d (range c))) edits
       | Blank => In (mkTextEdit (range c) []) edits
       | Comment | Diff => forall e, In e edits -> edit_range e <> range c
       end.
Proof.
  intros edits. split; [apply edit_ranges|].
  intros c Hc.
  assert (Hyes : forall e, chunk_edit d c = Some e -> In e edits)
    by (intros e He; apply In_edits; eauto).
  assert (Hno : chunk_edit d c = None -> forall e, In e edits -> edit_range e <> range c).
  { intros Hnone e He Hr. apply In_edits in He. destruct He as (c' & Hc' & He).
    apply chunk_edit_Some in He. destruct He as (He & Hk).
    assert (E : c' = c) by (apply (chunks_same_range d); congruence).
    subst c'. apply chunk_edit_None in Hnone. congruence. }
  unfold chunk_edit in Hyes, Hno. destruct (kind c); auto.
Qed.

Lemma edits_follow_chunk_kinds_witness :
  In (mkTextEdit (mkRange (mkPosition 2 0) (mkPosition 2 26))
        (str "Signed-off-by: A <a@x.com>"))
     (Formatter.formatGitCommitMessage Examples.signed_message).
Proof.
  refine (proj2 (edits_follow_chunk_kinds Examples.signed_message)
            (mkChunk (mkRange (mkPosition 2 0) (mkPosition 2 26)) Trailers) _).
  vm_compute. auto.
Defined.




(** C9, on the code: [REGEX_SPLIT] carries the global flag and is shared by
    all calls, so a call starts with the [lastIndex] the call before left
    behind. The first call on the text of one comment line answers with an
    empty line and the comment and leaves [lastIndex] at 1; the second call
    on the same text misses the comment while it splits the text, so that
    no empty line is put in front of it, and answers with the comment
    alone. *)
Theorem second_call_answers_differently :
  let first := PlainText.formatGitCommitMessage PlainText.fresh Examples.one_comment in
  let second := PlainText.formatGitCommitMessage (snd first) Examples.one_comment in
  first = (NL :: str "#", 1)
  /\ second = (str "#", 1)
  /\ fst first <> fst second.
Proof. repeat split. discriminate. Qed.

(** C10. Every line of a chunk of kind Paragraph, Subject or Trailers is a
    line of the document that is neither empty nor made of whitespace
    only, so the test for a continuation line fails on it; and when
    [isTrailersChunk] examines the last chunk of kind Paragraph, the loop
    never takes the branch of the continuation line. *)
Theorem text_chunks_hold_no_blank_line (d : TextDocument) :
  (forall c i,
      In c (getDocumentChunks d) ->
      kind c = Paragraph \/ kind c = Subject \/ kind c = Trailers ->
      startLine c <= i <= endLine c ->
      i < lineCount d
      /\ lineAt d i <> []
      /\ REGEX_BLANK (lineAt d i) = false
      /\ REGEX_TRAILER_CONT (lineAt d i) = false)
  /\ (forall i c,
        lastParagraph (chunks (scan d (lineCount d))) = Some (i, c) ->
        forall s, ~ In Continuation (trailer_trace (chunk_lines d (range c)) s)).
Proof.
  split.
  - intros c i Hin Hk Hi. destruct (lineCount d) eqn:En.
    + rewrite (getDocumentChunks_no_line d En) in Hin. destruct Hin as [<-|[]].
      simpl in Hk. intuition discriminate.
    + assert (Hn : 1 <= lineCount d) by lia. rewrite <- En.
      pose proof (tiles_In _ _ _ _ (chunks_tiles d Hn) Hin) as Hb.
      pose proof (chunks_kinds d c Hn Hin i ltac:(lia)) as Hl.
      assert (Hp : base_kind (kind c) = Paragraph)
        by (apply base_kind_Paragraph; tauto).
      rewrite Hp in Hl. symmetry in Hl. apply lineKind_Paragraph in Hl.
      destruct Hl as (Hl & _). repeat split; [lia| |exact Hl|].
      * intros E. rewrite E in Hl. discriminate.
      * destruct (REGEX_TRAILER_CONT (lineAt d i)) eqn:E; [|reflexivity].
        apply trailer_cont_is_blank in E. congruence.
  - intros i c H s. apply trace_without_continuation.
    destruct (lastParagraph_Some _ _ _ H) as (Hi & Hk & _).
    apply (paragraph_chunk_lines d c (nth_error_In _ _ Hi) Hk).
Qed.

Lemma text_chunks_hold_no_blank_line_witness :
  REGEX_TRAILER_CONT (lineAt Examples.three_prose 4) = false
  /\ ~ In Continuation
         (trailer_trace
            (chunk_lines Examples.three_prose (mkRange (mkPosition 2 0) (mkPosition 5 5)))
            trailer_init).
Proof.
  split.
  - refine (proj2 (proj2 (proj2
      (proj1 (text_chunks_hold_no_blank_line Examples.three_prose)
         (mkChunk (mkRange (mkPosition 2 0) (mkPosition 5 5)) Trailers) 4 _ _ _)))).
    + vm_compute. auto.
    + auto.
    + vm_compute. split; repeat constructor.
  - exact (proj2 (text_chunks_hold_no_blank_line Examples.three_prose) 2
             (mkChunk (mkRange (mkPosition 2 0) (mkPosition 5 5)) Paragraph)
             eq_refl trailer_init).
Defined.

(** * Further properties of the code *)

Import Vocabulary.

Import Providers.

(** ** The further definitions on concrete inputs *)

Example words_of_a_text :
  words (str "  fix   the parser ") = [str "fix"; str "the"; str "parser"].
Proof. reflexivity. Qed.

Example folding_ranges_of_message :
  getGitCommitFoldingRanges Examples.message
  = [mkFoldingRange 0 0 None; mkFoldingRange 2 3 None;
     mkFoldingRange 4 4 (Some FoldingComment)].
Proof. reflexivity. Qed.

Example symbols_of_verbose_message :
  map (fun sy => (symbol_name sy, line (start (symbol_range sy))))
      (getGitCommitSymbols Examples.verbose_message)
  = [(str "Subject Line", 0); (str "Comment", 1); (str "Diff", 3)].
Proof. reflexivity. Qed.

Example earlier_trailers_need_every_line :
  map kind (Earlier.getDocumentChunks Examples.three_prose)
  = [Subject; Blank; Paragraph]
  /\ map kind (Earlier.getDocumentChunks Examples.signed_message)
     = [Subject; Blank; Trailers].
Proof. split; reflexivity. Qed.

(** ** Formatting a subject or a paragraph *)

Section TextFacts.

Lemma single_spaced_loose s : single_spaced s -> loose s.
Proof.
  induction s as [|c s IH]; simpl; [auto|]. intros (Hc & Hs). split; [|auto].
  intros H. destruct (Hc H) as (-> & Hn). split; [reflexivity|].
  destruct s; [auto|exact Hn].
Qed.

Lemma replace_spaces_fix s :
  forall b, loose s -> (b = true -> no_leading_space s) ->
            replace_spaces_from b s = s.
Proof.
  induction s as [|c s IH]; intros b; simpl; [reflexivity|].
  intros (Hc & Hl) Hb. destruct (is_space c) eqn:E.
  - destruct b; [specialize (Hb eq_refl); congruence|].
    destruct (Hc eq_refl) as (-> & Hn). f_equal. apply IH; [exact Hl|].
    intros _. destruct s; simpl; auto.
  - f_equal. apply IH; [exact Hl|discriminate].
Qed.

Lemma dropWhile_fix s : no_leading_space s -> dropWhile is_space s = s.
Proof. destruct s as [|c s]; simpl; [reflexivity|]. intros ->. reflexivity. Qed.

Lemma single_spaced_rev s : single_spaced s -> no_leading_space (rev s).
Proof.
  induction s as [|c s IH]; simpl; [auto|]. intros (Hc & Hs).
  destruct s as [|c' s].
  - simpl. destruct (is_space c) eqn:E; [|reflexivity].
    destruct (Hc eq_refl) as (_ & []).
  - specialize (IH Hs). simpl in *.
    destruct (rev s ++ [c']) eqn:E'; [destruct (rev s); discriminate|exact IH].
Qed.

Lemma trim_fix s : tidy s -> trim s = s.
Proof.
  intros (Hl & Hs). unfold trim.
  rewrite (dropWhile_fix s Hl), (dropWhile_fix (rev s) (single_spaced_rev s Hs)).
  apply rev_involutive.
Qed.

Lemma tidy_fix s : tidy s -> trim (replace_spaces s) = s.
Proof.
  intros Ht. unfold replace_spaces.
  rewrite replace_spaces_fix; [apply trim_fix, Ht| |discriminate].
  apply single_spaced_loose, Ht.
Qed.

Lemma kept_or_broken_space a b :
  kept_or_broken a b -> is_space b = is_space a /\ (is_space a = false -> b = a).
Proof. intros [->|(-> & ->)]; split; auto. discriminate. Qed.

Lemma replace_spaces_broken a b :
  Forall2 kept_or_broken a b ->
  forall r, replace_spaces_from r b = replace_spaces_from r a.
Proof.
  induction 1 as [|x y a b Hxy _ IH]; intros r; [reflexivity|].
  destruct (kept_or_broken_space _ _ Hxy) as (Hs & He). simpl. rewrite Hs.
  destruct (is_space x); [rewrite !IH; reflexivity|].
  rewrite He, IH by reflexivity. reflexivity.
Qed.

(** *** Tokens *)

Lemma words_replace_spaces s :
  forall cur b, (b = true -> cur = []) ->
                words_from cur (replace_spaces_from b s) = words_from cur s.
Proof.
  induction s as [|c s IH]; intros cur b Hb; simpl; [reflexivity|].
  destruct (is_space c) eqn:E.
  - destruct b.
    + rewrite (Hb eq_refl). apply IH. reflexivity.
    + simpl. rewrite IH by reflexivity. reflexivity.
  - simpl. rewrite E. apply IH. discriminate.
Qed.

Lemma words_dropWhile s : words_from [] (dropWhile is_space s) = words_from [] s.
Proof.
  induction s as [|c s IH]; simpl; [reflexivity|].
  destruct (is_space c) eqn:E; [exact IH|]. simpl. rewrite E. reflexivity.
Qed.

Lemma words_trailing a w :
  forallb is_space w = true ->
  forall cur, words_from cur (a ++ w) = words_from cur a.
Proof.
  intros Hw. induction a as [|c a IH]; intros cur; simpl.
  - induction w as [|x w IHw]; [reflexivity|]. simpl in Hw.
    apply andb_true_iff in Hw. destruct Hw as (Hx & Hw). simpl. rewrite Hx.
    specialize (IHw Hw). destruct cur; [exact IHw|].
    clear - Hw. induction w as [|y w IHw]; [reflexivity|]. simpl in *.
    apply andb_true_iff in Hw. destruct Hw as (-> & Hw). auto.
  - destruct (is_space c); [destruct cur|]; rewrite ?IH; reflexivity.
Qed.

Lemma words_trim s : words (trim s) = words s.
Proof.
  unfold words, trim. rewrite <- (words_dropWhile s).
  set (u := dropWhile is_space s).
  destruct (dropWhile_split is_space (rev u)) as (w & E & Hw & _).
  assert (Eu : u = rev (dropWhile is_space (rev u)) ++ rev w).
  { rewrite <- rev_app_distr, <- E, rev_involutive. reflexivity. }
  rewrite Eu at 2. symmetry. apply words_trailing.
  rewrite forallb_forall in *. intros x Hx. apply Hw, in_rev, Hx.
Qed.

Lemma words_broken a b :
  Forall2 kept_or_broken a b ->
  forall cur, words_from cur b = words_from cur a.
Proof.
  induction 1 as [|x y a b Hxy _ IH]; intros cur; [reflexivity|].
  destruct (kept_or_broken_space _ _ Hxy) as (Hs & He). simpl. rewrite Hs.
  destruct (is_space x); [destruct cur; rewrite IH; reflexivity|].
  rewrite He, IH by reflexivity. reflexivity.
Qed.

Lemma words_flat t : words (trim (replace_spaces t)) = words t.
Proof.
  rewrite words_trim. unfold words, replace_spaces.
  apply words_replace_spaces. discriminate.
Qed.

End TextFacts.

(** X1. The formatted subject is tidy: it begins and ends with a token,
    its only whitespace is single spaces between tokens, and it is one
    line. Formatting it again changes nothing. *)
Theorem subject_is_normalised (t : text) :
  let out := formatSubjectChunk t in
  tidy out /\ split_nl out = [out] /\ formatSubjectChunk out = out.
Proof.
  intros out. pose proof (flat_tidy t) as Ht. fold (formatSubjectChunk t) in Ht.
  fold out in Ht. split; [exact Ht|]. split.
  - apply split_nl_line, single_spaced_not_nl, Ht.
  - apply tidy_fix, Ht.
Qed.

(** X2. Formatting a formatted paragraph again changes nothing: the
    newlines of the wrapped text collapse back into the spaces they
    replaced, and the same text is wrapped the same way. *)
Theorem paragraph_format_is_idempotent (t : text) :
  formatParagraphChunk (formatParagraphChunk t) = formatParagraphChunk t.
Proof.
  unfold formatParagraphChunk at 1 2.
  pose proof (flat_tidy t) as Ht. set (flat := trim (replace_spaces t)) in *.
  assert (E : replace_spaces (replace_wrap flat) = replace_spaces flat).
  { apply replace_spaces_broken, wrap_breaks, Ht. }
  rewrite E, (tidy_fix flat Ht). reflexivity.
Qed.

(** X3. Formatting changes whitespace only: the subject and the paragraph
    formatter return a text with the tokens of the input, in the same
    order. *)
Theorem formatting_keeps_the_words (t : text) :
  words (formatSubjectChunk t) = words t
  /\ words (formatParagraphChunk t) = words t.
Proof.
  split; [apply words_flat|].
  transitivity (words (trim (replace_spaces t))); [|apply words_flat].
  unfold formatParagraphChunk, words. apply words_broken, wrap_breaks, flat_tidy.
Qed.

(** ** The wrap is greedy *)

Section GreedyFacts.

Lemma wrap_match_upto_largest n s k :
  wrap_match_upto n s = Some k ->
  forall j, k < j <= n -> wrap_group_ok j s = false.
Proof.
  induction n as [|n IH]; simpl; [discriminate|].
  destruct (wrap_group_ok (S n) s) eqn:E.
  - intros [= <-] j Hj. lia.
  - intros H j Hj. destruct (Nat.eq_dec j (S n)) as [->|Hne]; [exact E|].
    apply IH; [exact H|lia].
Qed.

Lemma wrap_group_ok_space j s c :
  forallb not_nl s = true -> nth_error s j = Some c -> is_space c = true ->
  wrap_group_ok j s = true.
Proof.
  intros Hnl Hj Hc. unfold wrap_group_ok. rewrite Hj, Hc.
  assert (Hlt : j < length s) by (apply nth_error_Some; congruence).
  rewrite length_firstn, Nat.min_l, Nat.eqb_refl, forallb_firstn by (auto; lia).
  reflexivity.
Qed.

Lemma first_token_split s : first_token (hd [] (split_nl s)) = first_token s.
Proof.
  induction s as [|c s IH]; [reflexivity|]. simpl.
  destruct (N.eqb c NL) eqn:E.
  - apply N.eqb_eq in E. subst c. reflexivity.
  - destruct (split_nl s) as [|l ls]; simpl in *; rewrite IH; reflexivity.
Qed.

Lemma first_token_broken a b :
  Forall2 kept_or_broken a b -> first_token b = first_token a.
Proof.
  induction 1 as [|x y a b Hxy _ IH]; [reflexivity|].
  destruct (kept_or_broken_space _ _ Hxy) as (Hs & He). simpl. rewrite Hs.
  destruct (is_space x); [reflexivity|]. rewrite He, IH by reflexivity. reflexivity.
Qed.

(** Behind the first token comes the end of the text or a whitespace. *)
Lemma first_token_end s :
  length (first_token s) = length s
  \/ exists c, nth_error s (length (first_token s)) = Some c /\ is_space c = true.
Proof.
  induction s as [|c s IH]; simpl; [auto|].
  destruct (is_space c) eqn:E; simpl.
  - right. exists c. auto.
  - destruct IH as [IH|IH]; [left; congruence|right; exact IH].
Qed.

Lemma split_nl_not_empty s : split_nl s <> [].
Proof.
  destruct s as [|c s]; simpl; [discriminate|].
  destruct (N.eqb c NL); [discriminate|]. destruct (split_nl s); discriminate.
Qed.

Lemma tight_cons l ls :
  72 < length l + 1 + length (first_token (hd [] ls)) -> tight ls -> tight (l :: ls).
Proof. destruct ls; simpl; auto. Qed.

Lemma nth_error_skipn (A : Type) (l : list A) n m :
  nth_error (skipn n l) m = nth_error l (n + m).
Proof.
  revert l. induction n as [|n IH]; intros [|x l]; simpl; auto.
  destruct m; reflexivity.
Qed.

(** The lines of the wrapped text, as in [wrap_lines]: a line that ends
    at a match is followed by a token that did not fit. *)
Lemma tight_lines fuel :
  forall s acc,
    length s <= fuel -> single_spaced s -> token acc ->
    (acc = [] -> no_leading_space s) ->
    (acc <> [] -> 72 <= length s /\ token (firstn 72 s)) ->
    tight (split_nl (acc ++ replace_wrap_fuel fuel s)).
Proof.
  assert (Hone : forall acc s,
             token acc -> forallb not_nl s = true -> tight (split_nl (acc ++ s))).
  { intros acc s Hacc Hnl.
    rewrite split_nl_line
      by (rewrite forallb_app, (token_not_nl _ Hacc), Hnl; reflexivity).
    exact I. }
  induction fuel as [|fuel IH]; intros s acc Hlen Hss Hacc H0 H1;
    pose proof (single_spaced_not_nl _ Hss) as Hnl.
  - destruct s; [|simpl in Hlen; lia]. apply Hone; auto.
  - destruct (le_lt_dec (length s) 72) as [Hle|Hgt];
      [rewrite replace_wrap_short by assumption; apply Hone; auto|].
    destruct s as [|c r]; [simpl in Hgt; lia|]. cbn [replace_wrap_fuel].
    destruct (wrap_match (c :: r)) as [k|] eqn:Em.
    + destruct (wrap_match_Some _ _ Hnl Em) as (Hk & _ & x & Hx & Hsx).
      destruct (single_spaced_nth _ _ _ Hss Hx Hsx) as (-> & Hlead & Hlt).
      set (s' := skipn (S k) (c :: r)) in *.
      assert (Hss' : single_spaced s') by apply single_spaced_skipn, Hss.
      rewrite app_assoc, split_nl_break
        by (rewrite forallb_app, (token_not_nl _ Hacc), forallb_firstn; auto).
      apply tight_cons.
      * rewrite first_token_split, (first_token_broken s' _ (wrap_breaks fuel s' Hss')).
        rewrite length_app, length_firstn, Nat.min_l by lia.
        destruct acc as [|a acc].
        -- simpl length.
           destruct (le_lt_dec (k + 1 + length (first_token s')) 72) as [Hfit|]; [|lia].
           exfalso. destruct (first_token_end s') as [Hend|(y & Hy & Hsy)].
           ++ subst s'. rewrite length_skipn in Hend. lia.
           ++ subst s'. rewrite nth_error_skipn in Hy.
              pose proof (wrap_group_ok_space _ _ _ Hnl Hy Hsy) as Hok.
              unfold wrap_match in Em.
              destruct (wrap_lookahead (c :: r)); [discriminate|].
              rewrite (wrap_match_upto_largest _ _ _ Em) in Hok; [discriminate|lia].
        -- destruct H1 as (_ & H1); [discriminate|].
           assert (Ek : k = 72).
           { destruct (Nat.eq_dec k 72) as [E|E]; [exact E|].
             pose proof (token_firstn_nth 72 _ k SP H1 ltac:(lia) Hx). discriminate. }
           simpl length. lia.
      * apply (IH _ []).
        -- subst s'. rewrite length_skipn. simpl in Hlen |- *. lia.
        -- exact Hss'.
        -- constructor.
        -- intros _. exact Hlead.
        -- intros H. contradiction.
    + destruct (wrap_match_None _ Hnl Em) as [Hle|Hns]; [lia|].
      assert (Hc : is_space c = false).
      { destruct acc as [|a acc]; [apply H0; reflexivity|].
        destruct H1 as (_ & H1); [discriminate|]. inversion H1; assumption. }
      change (c :: replace_wrap_fuel fuel r) with ([c] ++ replace_wrap_fuel fuel r).
      rewrite app_assoc. apply IH.
      * simpl in Hlen. lia.
      * apply Hss.
      * apply Forall_app. split; [exact Hacc|]. constructor; [exact Hc|constructor].
      * intros E. apply app_eq_nil in E. destruct E. discriminate.
      * intros _. split; [simpl in Hgt; lia|].
        apply firstn_token. intros j x Hj Hx. apply (Hns (S j) x); [lia|exact Hx].
Qed.

End GreedyFacts.

(** X4. The wrap is greedy: every line of a formatted paragraph but the
    last is followed by a token that would not have fitted on it, for the
    line, a space and the first token of the next line have more than 72
    code units. *)
Theorem wrap_is_greedy (t : text) : tight (split_nl (formatParagraphChunk t)).
Proof.
  destruct (flat_tidy t) as (Hlead & Hss).
  apply (tight_lines (length (trim (replace_spaces t))) _ []); auto.
  - constructor.
  - intros H. contradiction.
Qed.

(** ** The shape of the chunk list *)

Section ShapeFacts.

Variable d : TextDocument.

Lemma Forall_update_last (P Q : GitCommitChunk -> Prop) f cs :
  (forall c, P c -> Q c) -> (forall c, P c -> Q (f c)) ->
  Forall P cs -> Forall Q (update_last f cs).
Proof.
  intros HPQ Hf. induction 1 as [|c cs Hc Hcs IH]; [constructor|].
  destruct cs as [|c' cs]; simpl in *.
  - constructor; auto.
  - constructor; auto.
Qed.

Lemma scan_starts m :
  Forall (fun c => character (start (range c)) = 0) (chunks (scan d m)).
Proof.
  induction m as [|m IH]; [repeat constructor|].
  rewrite chunks_step. destruct (kind_eqb _ _).
  - revert IH. apply Forall_update_last; auto.
  - apply Forall_app. split; [|repeat constructor].
    destruct (hadInitialLine (scan d m)); [exact IH|apply Forall_removelast, IH].
Qed.

Lemma scan_ends m :
  Forall (fun c => character (end_ (range c)) = length (lineAt d (endLine c)))
         (chunks (scan d (S m))).
Proof.
  induction m as [|m IH].
  - rewrite chunks_step. simpl. destruct (kind_eqb _ _); repeat constructor.
  - rewrite chunks_step. rewrite (hadInitialLine_step d m).
    destruct (kind_eqb _ _).
    + destruct (inv_open (scan_inv d (S m))) as (pre & c & E & _).
      rewrite E in IH |- *. rewrite update_last_snoc.
      apply Forall_app in IH. destruct IH as (IH & _).
      apply Forall_app. split; [exact IH|]. repeat constructor.
    + apply Forall_app. split; [exact IH|repeat constructor].
Qed.

Lemma scan_whole_lines m c :
  1 <= m -> In c (chunks (scan d m)) -> whole_lines d c.
Proof.
  intros Hm Hin. destruct m as [|m]; [lia|].
  pose proof (scan_starts (S m)) as H1. pose proof (scan_ends m) as H2.
  rewrite Forall_forall in H1, H2. specialize (H1 _ Hin). specialize (H2 _ Hin).
  unfold whole_lines, startLine, endLine in *.
  destruct c as [[[sl sc] [el ec]] k]. simpl in *. subst. reflexivity.
Qed.

Lemma chunks_whole_lines c :
  1 <= lineCount d -> In c (getDocumentChunks d) -> whole_lines d c.
Proof.
  intros Hn Hin.
  destruct (reclassified_In _ _ _ (chunks_reclassified d) Hin) as (x & Hx & Hr & _).
  pose proof (scan_whole_lines _ _ Hn Hx) as Hw.
  unfold whole_lines, startLine, endLine in *. rewrite Hr. exact Hw.
Qed.

Lemma join_eol_seq (f : nat -> text) e n :
  forall a,
    Extension.join_eol e (map f (seq a (S n)))
    = flat_map (fun i => f i ++ e) (seq a n) ++ f (a + n).
Proof.
  induction n as [|n IH]; intros a.
  - simpl. rewrite Nat.add_0_r. reflexivity.
  - change (seq a (S (S n))) with (a :: seq (S a) (S n)).
    cbn [map]. cbn [Extension.join_eol].
    destruct (map f (seq (S a) (S n))) eqn:E; [discriminate|]. rewrite <- E, IH.
    cbn [seq flat_map]. rewrite <- !app_assoc.
    replace (S a + n) with (a + S n) by lia. reflexivity.
Qed.

Lemma getText_whole_lines sl el :
  sl <= el ->
  getText d (mkRange (mkPosition sl 0) (mkPosition el (length (lineAt d el))))
  = Extension.join_eol (eol d) (map (lineAt d) (seq sl (S el - sl))).
Proof.
  intros Hle. unfold getText. cbn [start end_ line character].
  destruct (sl =? el) eqn:E.
  - apply Nat.eqb_eq in E. subst el.
    replace (S sl - sl) with 1 by lia. simpl. rewrite Nat.sub_0_r. apply firstn_all.
  - apply Nat.eqb_neq in E.
    replace (S el - sl) with (S (S (el - S sl))) by lia.
    change (seq sl (S (S (el - S sl)))) with (sl :: seq (S sl) (S (el - S sl))).
    cbn [map Extension.join_eol].
    destruct (map (lineAt d) (seq (S sl) (S (el - S sl)))) eqn:E'; [discriminate|].
    rewrite <- E', join_eol_seq. rewrite firstn_all.
    replace (S sl + (el - S sl)) with el by lia. reflexivity.
Qed.

(** *** Neighbours *)

Lemma alternating_snoc ks k0 k :
  alternating (ks ++ [k0]) -> base_kind k0 <> base_kind k ->
  alternating ((ks ++ [k0]) ++ [k]).
Proof.
  induction ks as [|x ks IH]; simpl; [auto|].
  destruct ks as [|y ks]; simpl in *; intros (H1 & H2) H.
  - repeat split; auto.
  - split; [exact H1|]. apply IH; assumption.
Qed.

Lemma alternating_base a b :
  map base_kind a = map base_kind b -> alternating a -> alternating b.
Proof.
  revert b. induction a as [|x a IH]; intros [|y b] E; try discriminate; auto.
  injection E as E1 E2. destruct a as [|x' a], b as [|y' b]; try discriminate; auto.
  injection E2 as E2 E3. intros H. destruct H as (H1 & H2). split; [congruence|].
  apply IH; [simpl; congruence|exact H2].
Qed.

Lemma alternating_nth ks i k1 k2 :
  alternating ks -> nth_error ks i = Some k1 -> nth_error ks (S i) = Some k2 ->
  base_kind k1 <> base_kind k2.
Proof.
  revert i. induction ks as [|x ks IH]; intros i H H1 H2; [destruct i; discriminate|].
  destruct ks as [|y ks]; [destruct i as [|[|i]]; discriminate|].
  destruct H as (Hxy & H). destruct i as [|i].
  - simpl in *. congruence.
  - exact (IH i H H1 H2).
Qed.

Lemma scan_alternating m : alternating (map kind (chunks (scan d m))).
Proof.
  induction m as [|m IH]; [exact I|].
  rewrite chunks_step. destruct (kind_eqb _ _) eqn:E.
  - rewrite map_kind_update_last by reflexivity. exact IH.
  - assert (Hne : lineKind d m <> lastKind (scan d m))
      by (intros H; apply kind_eqb_eq in H; congruence).
    rewrite map_app. cbn [map kind].
    set (knew := if kind_eqb (lineKind d m) Paragraph && negb (hadSubjectLine (scan d m))
                 then Subject else lineKind d m).
    assert (Hknew : base_kind knew = lineKind d m).
    { subst knew. destruct (kind_eqb (lineKind d m) Paragraph) eqn:EP; simpl.
      - apply kind_eqb_eq in EP. rewrite EP.
        destruct (hadSubjectLine (scan d m)); reflexivity.
      - apply base_kind_lineKind. }
    destruct (inv_open (scan_inv d m)) as (pre & c & Ec & _ & Hb & Hi & _).
    rewrite Ec in IH |- *. destruct (hadInitialLine (scan d m)).
    + rewrite map_app in IH |- *. apply alternating_snoc; [exact IH|].
      simpl. congruence.
    + destruct Hi as (_ & -> & _). exact I.
Qed.

Lemma chunks_alternating : alternating (map kind (getDocumentChunks d)).
Proof.
  apply (alternating_base (map kind (chunks (scan d (lineCount d)))));
    [|apply scan_alternating].
  pose proof (chunks_reclassified d) as H.
  induction H as [|x y a b Hxy _ IH]; [reflexivity|].
  simpl. rewrite IH, (reclassified_base_kind _ _ Hxy). reflexivity.
Qed.

Lemma neighbours_exist i c1 c2 :
  nth_error (getDocumentChunks d) i = Some c1 ->
  nth_error (getDocumentChunks d) (S i) = Some c2 ->
  1 <= lineCount d.
Proof.
  intros H1 H2. destruct (lineCount d) eqn:E; [|lia].
  rewrite (getDocumentChunks_no_line d E) in H2. destruct i; discriminate.
Qed.

Lemma lineKind_Diff i : lineKind d i = Diff -> areInDiff (scan d (S i)) = true.
Proof.
  destruct (lineKind_cases d i) as [(_ & H)|(_ & ->)]; [auto|].
  destruct (rawKind_cases (lineAt d i)) as [->|[->| ->]]; discriminate.
Qed.

End ShapeFacts.

(** X5. In a document with at least one line the range of every chunk
    runs from the start of its first line to the end of its last line, so
    the text the formatters are given for a chunk is the lines of the
    chunk, joined by the end-of-line sequence of the document. *)
Theorem chunk_text_is_its_lines (d : TextDocument) (c : GitCommitChunk) :
  1 <= lineCount d -> In c (getDocumentChunks d) ->
  range c
  = mkRange (mkPosition (startLine c) 0)
            (mkPosition (endLine c) (length (lineAt d (endLine c))))
  /\ getText d (range c)
     = Extension.join_eol (eol d) (chunk_lines d (range c)).
Proof.
  intros Hn Hin. pose proof (chunks_whole_lines d c Hn Hin) as Hw.
  split; [exact Hw|]. unfold whole_lines in Hw.
  pose proof (tiles_In _ _ _ _ (chunks_tiles d Hn) Hin) as Hb.
  unfold chunk_lines. rewrite Hw at 1.
  rewrite getText_whole_lines by lia. reflexivity.
Qed.

Lemma chunk_text_is_its_lines_witness :
  getText Examples.message (mkRange (mkPosition 2 0) (mkPosition 3 12))
  = str "It failed on" ++ NL :: str "empty input.".
Proof.
  refine (eq_trans (proj2 (chunk_text_is_its_lines Examples.message
            (mkChunk (mkRange (mkPosition 2 0) (mkPosition 3 12)) Paragraph) _ _)) _).
  - vm_compute. repeat constructor.
  - vm_compute. auto.
  - reflexivity.
Defined.

(** X6. Chunks are maximal runs: the lines of a chunk and the lines of
    the chunk behind it are of different kinds. *)
Theorem neighbour_chunks_differ (d : TextDocument) (i : nat)
    (c1 c2 : GitCommitChunk) :
  nth_error (getDocumentChunks d) i = Some c1 ->
  nth_error (getDocumentChunks d) (S i) = Some c2 ->
  forall i1 i2,
    startLine c1 <= i1 <= endLine c1 -> startLine c2 <= i2 <= endLine c2 ->
    lineKind d i1 <> lineKind d i2.
Proof.
  intros H1 H2 i1 i2 Hi1 Hi2.
  pose proof (neighbours_exist d i c1 c2 H1 H2) as Hn.
  pose proof (alternating_nth _ i (kind c1) (kind c2) (chunks_alternating d)) as Ha.
  rewrite !nth_error_map, H1, H2 in Ha. specialize (Ha eq_refl eq_refl).
  rewrite (chunks_kinds d c1 Hn (nth_error_In _ _ H1) i1) in Ha by lia.
  rewrite (chunks_kinds d c2 Hn (nth_error_In _ _ H2) i2) in Ha by lia.
  exact Ha.
Qed.

Lemma neighbour_chunks_differ_witness :
  lineKind Examples.message 3 <> lineKind Examples.message 4.
Proof.
  refine (neighbour_chunks_differ Examples.message 2
            (mkChunk (mkRange (mkPosition 2 0) (mkPosition 3 12)) Paragraph)
            (mkChunk (mkRange (mkPosition 4 0) (mkPosition 4 9)) Comment)
            eq_refl eq_refl 3 4 _ _); vm_compute; split; repeat constructor.
Defined.

(** X7. A chunk of kind Diff is the last chunk of the list and ends at
    the last line of the document; so there is at most one. *)
Theorem diff_chunk_is_last (d : TextDocument) (i : nat) (c : GitCommitChunk) :
  nth_error (getDocumentChunks d) i = Some c -> kind c = Diff ->
  S i = length (getDocumentChunks d) /\ S (endLine c) = lineCount d.
Proof.
  intros Hi Hk.
  assert (Hn : 1 <= lineCount d).
  { destruct (lineCount d) eqn:E; [|lia].
    rewrite (getDocumentChunks_no_line d E) in Hi.
    destruct i as [|[|i]]; try discriminate. injection Hi as <-. discriminate. }
  pose proof (chunks_tiles d Hn) as Ht.
  assert (Hlast : nth_error (getDocumentChunks d) (S i) = None).
  { destruct (nth_error (getDocumentChunks d) (S i)) as [c2|] eqn:E2; [|reflexivity].
    exfalso.
    pose proof (alternating_nth _ i (kind c) (kind c2) (chunks_alternating d)) as Ha.
    rewrite !nth_error_map, Hi, E2 in Ha. specialize (Ha eq_refl eq_refl).
    pose proof (tiles_In _ _ _ _ Ht (nth_error_In _ _ Hi)) as Hb.
    pose proof (tiles_In _ _ _ _ Ht (nth_error_In _ _ E2)) as Hb2.
    pose proof (tiles_adjacent _ _ _ _ _ _ Ht Hi E2) as Hadj.
    pose proof (chunks_kinds d c Hn (nth_error_In _ _ Hi) (startLine c)) as K1.
    pose proof (chunks_kinds d c2 Hn (nth_error_In _ _ E2) (startLine c2)) as K2.
    rewrite Hk in K1, Ha. simpl in K1, Ha. symmetry in K1.
    specialize (K1 ltac:(lia)). apply lineKind_Diff in K1.
    apply (areInDiff_mono d _ (S (startLine c2))) in K1; [|lia].
    apply Ha. rewrite K2 by lia. unfold lineKind. rewrite K1. reflexivity. }
  apply nth_error_None in Hlast.
  assert (Hlt : i < length (getDocumentChunks d))
    by (apply nth_error_Some; congruence).
  split; [lia|].
  destruct (tiles_last_nth _ _ _ Ht) as (c' & Hc' & He); [lia|].
  replace (length (getDocumentChunks d) - 1) with i in Hc' by lia.
  congruence.
Qed.

Lemma diff_chunk_is_last_witness :
  3 = length (getDocumentChunks Examples.verbose_message)
  /\ 6 = lineCount Examples.verbose_message.
Proof.
  exact (diff_chunk_is_last Examples.verbose_message 2
           (mkChunk (mkRange (mkPosition 3 0) (mkPosition 5 5)) Diff)
           eq_refl eq_refl).
Defined.

(** ** Trailers and blank documents *)

Section TrailersShape.

Variable d : TextDocument.

Lemma scan_no_trailers c :
  In c (chunks (scan d (lineCount d))) -> kind c <> Trailers.
Proof.
  intros Hin. pose proof (inv_no_trailers (scan_inv d (lineCount d))) as H.
  rewrite Forall_map, Forall_forall in H. exact (H c Hin).
Qed.

(** A chunk of kind Trailers in the result is the last paragraph of the
    loop, reclassified. *)
Lemma trailers_chunk_origin i c :
  nth_error (getDocumentChunks d) i = Some c -> kind c = Trailers ->
  exists c0,
    lastParagraph (chunks (scan d (lineCount d))) = Some (i, c0)
    /\ getDocumentChunks d = set_kind i Trailers (chunks (scan d (lineCount d))).
Proof.
  intros Hi Hk. unfold getDocumentChunks, reclassify in *.
  destruct (lastParagraph (chunks (scan d (lineCount d)))) as [[i0 c0]|] eqn:E.
  - destruct (isTrailersChunk c0 d).
    + destruct (Nat.eq_dec i i0) as [->|Hne]; [eauto|].
      rewrite set_kind_elsewhere in Hi by exact Hne.
      destruct (scan_no_trailers c (nth_error_In _ _ Hi) Hk).
    + destruct (scan_no_trailers c (nth_error_In _ _ Hi) Hk).
  - destruct (scan_no_trailers c (nth_error_In _ _ Hi) Hk).
Qed.

Lemma paragraph_chunk_has_subject c :
  In c (chunks (scan d (lineCount d))) -> kind c = Paragraph ->
  hadSubjectLine (scan d (lineCount d)) = true.
Proof.
  intros Hin Hk. destruct (hadSubjectLine (scan d (lineCount d))) eqn:E; [reflexivity|].
  pose proof (inv_no_subject (scan_inv d (lineCount d)) E) as H.
  rewrite Forall_map, Forall_forall in H. destruct (H c Hin). contradiction.
Qed.

Lemma lineKind_blank i :
  (forall j, j <= i -> REGEX_BLANK (lineAt d j) = true) -> lineKind d i = Blank.
Proof.
  intros H.
  assert (Hc : hadCutLine (scan d (S i)) = false).
  { apply hadCutLine_none. intros j Hj.
    destruct (REGEX_CUT_LINE (lineAt d j)) eqn:E; [|reflexivity].
    apply cut_line_is_comment in E. destruct E as (E & _).
    rewrite H in E by lia. discriminate. }
  destruct (lineKind_cases d i) as [(_ & Hd)|(_ & ->)].
  - apply areInDiff_hadCutLine in Hd. congruence.
  - unfold rawKind. rewrite H by lia. reflexivity.
Qed.

End TrailersShape.

(** X8. A chunk of kind Trailers is the only one of its kind, a chunk of
    kind Subject comes before it, and only Comment, Blank and Diff chunks
    come behind it: the first paragraph of a message stays the subject
    even when all its lines are trailers. *)
Theorem trailers_chunk_is_unique_and_late (d : TextDocument) (i : nat)
    (c : GitCommitChunk) :
  nth_error (getDocumentChunks d) i = Some c -> kind c = Trailers ->
  (exists j s, j < i /\ nth_error (getDocumentChunks d) j = Some s
               /\ kind s = Subject)
  /\ (forall j c', i < j -> nth_error (getDocumentChunks d) j = Some c' ->
        kind c' = Comment \/ kind c' = Blank \/ kind c' = Diff)
  /\ (forall j c', nth_error (getDocumentChunks d) j = Some c' ->
        kind c' = Trailers -> j = i).
Proof.
  intros Hi Hk. destruct (trailers_chunk_origin d i c Hi Hk) as (c0 & Hlast & Hres).
  destruct (lastParagraph_Some _ _ _ Hlast) as (Hn0 & Hk0 & Hafter).
  pose proof (paragraph_chunk_has_subject d c0 (nth_error_In _ _ Hn0) Hk0) as Hsub.
  destruct (subject_split_scan d _ Hsub) as (p & s & q & E & Hs & Hp & Hq).
  assert (Hlen : length p < i).
  { destruct (lt_eq_lt_dec i (length p)) as [[Hlt|Heq]|Hgt]; [| |exact Hgt].
    - rewrite E, nth_error_app1 in Hn0 by exact Hlt. apply nth_error_In in Hn0.
      rewrite Forall_forall in Hp. destruct (Hp _ Hn0); congruence.
    - rewrite E, nth_error_app2, Heq, Nat.sub_diag in Hn0 by lia.
      simpl in Hn0. congruence. }
  assert (Hbehind : forall j c', length p < j ->
             nth_error (chunks (scan d (lineCount d))) j = Some c' ->
             kind c' <> Subject).
  { intros j c' Hj Hc'. rewrite E, nth_error_app2 in Hc' by lia.
    destruct (j - length p) as [|k] eqn:Ek; [lia|]. simpl in Hc'.
    apply nth_error_In in Hc'. rewrite Forall_forall in Hq. exact (Hq _ Hc'). }
  split; [|split].
  - exists (length p), s. split; [exact Hlen|]. split; [|exact Hs].
    rewrite Hres, set_kind_elsewhere by lia.
    rewrite E, nth_error_app2, Nat.sub_diag by lia. reflexivity.
  - intros j c' Hj Hc'. rewrite Hres, set_kind_elsewhere in Hc' by lia.
    pose proof (Hafter j c' Hj Hc') as H1.
    pose proof (Hbehind j c' ltac:(lia) Hc') as H2.
    pose proof (scan_no_trailers d c' (nth_error_In _ _ Hc')) as H3.
    destruct (kind c'); tauto.
  - intros j c' Hc' Hk'.
    destruct (trailers_chunk_origin d j c' Hc' Hk') as (c1 & Hlast' & _). congruence.
Qed.

Lemma trailers_chunk_is_unique_and_late_witness :
  exists j s, j < 2 /\ nth_error (getDocumentChunks Examples.signed_message) j = Some s
              /\ kind s = Subject.
Proof.
  exact (proj1 (trailers_chunk_is_unique_and_late Examples.signed_message 2
                  (mkChunk (mkRange (mkPosition 2 0) (mkPosition 2 26)) Trailers)
                  eq_refl eq_refl)).
Defined.

(** X9. A document whose lines are all blank is one chunk of kind Blank
    over the whole document, and formatting it is one edit that replaces
    the whole document by the empty string. *)
Theorem blank_document_is_one_chunk (d : TextDocument) :
  1 <= lineCount d ->
  (forall i, i < lineCount d -> REGEX_BLANK (lineAt d i) = true) ->
  let whole :=
    mkRange (mkPosition 0 0)
            (mkPosition (lineCount d - 1) (length (lineAt d (lineCount d - 1)))) in
  getDocumentChunks d = [mkChunk whole Blank]
  /\ Formatter.formatGitCommitMessage d = [mkTextEdit whole []].
Proof.
  intros Hn Hblank whole.
  assert (Hkind : forall c, In c (getDocumentChunks d) -> kind c = Blank).
  { intros c Hin.
    pose proof (tiles_In _ _ _ _ (chunks_tiles d Hn) Hin) as Hb.
    pose proof (chunks_kinds d c Hn Hin (startLine c) ltac:(lia)) as Hk.
    rewrite lineKind_blank in Hk by (intros j Hj; apply Hblank; lia).
    destruct (kind c); simpl in Hk; congruence. }
  assert (E : getDocumentChunks d = [mkChunk whole Blank]).
  { pose proof (chunks_tiles d Hn) as Ht. pose proof (chunks_alternating d) as Ha.
    pose proof (chunks_whole_lines d) as Hw.
    destruct (getDocumentChunks d) as [|c1 [|c2 cs]].
    - simpl in Ht. lia.
    - destruct Ht as (H1 & H2 & H3). simpl in H3.
      specialize (Hw c1 Hn (or_introl eq_refl)). unfold whole_lines in Hw.
      specialize (Hkind c1 (or_introl eq_refl)).
      destruct c1 as [r k]. simpl in *. subst k. rewrite Hw. subst whole.
      unfold startLine, endLine in *. simpl in *.
      rewrite H1. replace (lineCount d - 1) with (line (end_ r)) by lia. reflexivity.
    - exfalso. destruct Ha as (Ha & _). simpl in Ha.
      rewrite (Hkind c1), (Hkind c2) in Ha by (simpl; auto). contradiction. }
  split; [exact E|]. unfold Formatter.formatGitCommitMessage. rewrite E. reflexivity.
Qed.

Lemma blank_document_is_one_chunk_witness :
  getDocumentChunks (doc [""; "  "; ""]%string)
  = [mkChunk (mkRange (mkPosition 0 0) (mkPosition 2 0)) Blank].
Proof.
  refine (proj1 (blank_document_is_one_chunk (doc [""; "  "; ""]%string) _ _)).
  - vm_compute. repeat constructor.
  - intros i Hi. destruct i as [|[|[|i]]]; try reflexivity.
    exfalso. vm_compute in Hi.
    repeat (apply le_S_n in Hi). inversion Hi.
Defined.

(** ** What is made of the chunks: edits, folding ranges, outline, selection *)

Section ProviderFacts.

Variable d : TextDocument.

Lemma tiles_sorted lo cs hi :
  tiles lo cs hi -> StronglySorted (fun a b => endLine a < startLine b) cs.
Proof.
  revert lo. induction cs as [|c cs IH]; intros lo Ht; [constructor|].
  destruct Ht as (H1 & H2 & H3). constructor; [exact (IH _ H3)|].
  apply Forall_forall. intros x Hx. destruct (tiles_In _ _ _ _ H3 Hx). lia.
Qed.

Lemma chunks_sorted :
  StronglySorted (fun a b => endLine a < startLine b) (getDocumentChunks d).
Proof.
  destruct (lineCount d) eqn:E.
  - rewrite (getDocumentChunks_no_line d E). repeat constructor.
  - apply (tiles_sorted 0 _ (lineCount d)), chunks_tiles. lia.
Qed.

Lemma filter_defined_sorted (B : Type) (g : GitCommitChunk -> option B)
    (R : B -> B -> Prop) cs :
  (forall a b x y, g a = Some x -> g b = Some y ->
                   endLine a < startLine b -> R x y) ->
  StronglySorted (fun a b => endLine a < startLine b) cs ->
  StronglySorted R (filter_defined (map g cs)).
Proof.
  intros HR. induction 1 as [|c cs _ IH Hc]; simpl; [constructor|].
  destruct (g c) as [x|] eqn:E; [|exact IH]. constructor; [exact IH|].
  clear IH. induction Hc as [|c' cs Hc' _ IH']; simpl; [constructor|].
  destruct (g c') as [y|] eqn:E'; [|exact IH']. constructor; [|exact IH'].
  exact (HR c c' x y E E' Hc').
Qed.

Lemma In_mapped (B : Type) (g : GitCommitChunk -> option B) y cs :
  In y (filter_defined (map g cs)) <-> exists c, In c cs /\ g c = Some y.
Proof.
  rewrite In_filter_defined, in_map_iff. split; intros (c & H1 & H2); eauto.
Qed.

Lemma chunk_fold_Some c f :
  chunk_fold c = Some f ->
  fold_start f = startLine c /\ fold_end f = endLine c
  /\ (base_kind (kind c) = Paragraph /\ fold_kind f = None
      \/ kind c = Comment /\ fold_kind f = Some FoldingComment).
Proof.
  unfold chunk_fold. destruct (kind c) eqn:E; intros [= <-]; simpl; auto.
Qed.

Lemma chunk_fold_exists c :
  base_kind (kind c) = Paragraph \/ kind c = Comment ->
  exists f, chunk_fold c = Some f.
Proof.
  unfold chunk_fold. destruct (kind c); simpl; intros [H|H];
    try discriminate; eauto.
Qed.

Lemma chunk_symbol_Some c sy :
  chunk_symbol d c = Some sy ->
  symbol_range sy = range c /\ symbol_selection sy = range c
  /\ symbol_detail sy = getText d (range c) /\ kind c <> Blank
  /\ text_eqb (symbol_name sy) (str "Subject Line") = kind_eqb (kind c) Subject.
Proof.
  unfold chunk_symbol. destruct (kind c) eqn:E; simpl; try discriminate;
    intros [= <-]; simpl; repeat split; discriminate.
Qed.

Lemma subject_count : count_kind Subject (getDocumentChunks d) <= 1.
Proof.
  destruct (hadSubjectLine (scan d (lineCount d))) eqn:E.
  - destruct (subject_split d E) as (pre & s & post & -> & Hs & Hp & Hq).
    rewrite count_kind_app. change (s :: post) with ([s] ++ post).
    rewrite count_kind_app, (count_kind_none _ _ Hq), count_kind_none.
    + unfold count_kind. simpl. rewrite Hs. simpl. lia.
    + revert Hp. apply Forall_impl. intros c [-> | ->]; discriminate.
  - rewrite count_kind_none; [lia|]. apply no_subject, E.
Qed.

(** The chunk of kind Subject, when the document has a line of kind
    Paragraph: it starts at the first such line and holds the whole run
    of such lines that begins there. *)
Lemma subject_chunk_found i :
  i < lineCount d -> lineKind d i = Paragraph ->
  exists s,
    find (fun c => kind_eqb (kind c) Subject) (getDocumentChunks d) = Some s
    /\ In s (getDocumentChunks d)
    /\ lineKind d (startLine s) = Paragraph
    /\ (forall j, j < startLine s -> lineKind d j <> Paragraph)
    /\ (S (endLine s) < lineCount d -> lineKind d (S (endLine s)) <> Paragraph).
Proof.
  intros Hi Hk. assert (Hn : 1 <= lineCount d) by lia.
  pose proof (paragraph_line_gives_subject d i Hi Hk) as Hsub.
  destruct (subject_split d Hsub) as (pre & s & post & E & Hs & Hp & Hq).
  pose proof (chunks_tiles d Hn) as Ht. rewrite E in Ht.
  apply tiles_app in Ht. destruct Ht as (m & Ht1 & Ht2).
  pose proof (tiles_head _ _ _ _ Ht2) as Hm. subst m.
  assert (Hin : In s (getDocumentChunks d)) by (rewrite E; apply in_elt).
  pose proof (tiles_In _ _ _ _ (chunks_tiles d Hn) Hin) as Hb.
  exists s. split; [|split; [exact Hin|split; [|split]]].
  - rewrite E. clear - Hp Hs. induction Hp as [|c pre Hc _ IH]; simpl.
    + rewrite Hs. reflexivity.
    + destruct Hc as [-> | ->]; exact IH.
  - pose proof (chunks_kinds d s Hn Hin (startLine s) ltac:(lia)) as K.
    rewrite Hs in K. symmetry. exact K.
  - intros j Hj Hpar.
    destruct (tiles_cover _ _ _ j Ht1) as (k & c & Hc & Hjc); [lia|].
    apply nth_error_In in Hc.
    assert (Hin' : In c (getDocumentChunks d)) by (rewrite E; apply in_or_app; auto).
    pose proof (chunks_kinds d c Hn Hin' j ltac:(lia)) as K. rewrite Hpar in K.
    rewrite Forall_forall in Hp. destruct (Hp c Hc) as [Hc'|Hc'];
      rewrite Hc' in K; discriminate.
  - intros Hlt Hpar. destruct Ht2 as (_ & _ & Ht2).
    destruct post as [|c2 post]; [simpl in Ht2; lia|].
    pose proof (tiles_head _ _ _ _ Ht2) as H2.
    pose proof (alternating_nth _ (length pre) (kind s) (kind c2)
                  (chunks_alternating d)) as Ha.
    rewrite E, !nth_error_map in Ha.
    rewrite nth_error_app2, Nat.sub_diag in Ha by lia.
    rewrite nth_error_app2 in Ha by lia.
    replace (S (length pre) - length pre) with 1 in Ha by lia.
    specialize (Ha eq_refl eq_refl). apply Ha.
    assert (Hin2 : In c2 (getDocumentChunks d))
      by (rewrite E; apply in_or_app; right; simpl; auto).
    pose proof (tiles_In _ _ _ _ (chunks_tiles d Hn) Hin2) as Hb2.
    rewrite (chunks_kinds d c2 Hn Hin2 (startLine c2)) by lia.
    rewrite Hs, H2, Hpar. reflexivity.
Qed.

Lemma no_subject_chunk :
  (forall i, i < lineCount d -> lineKind d i <> Paragraph) ->
  find (fun c => kind_eqb (kind c) Subject) (getDocumentChunks d) = None.
Proof.
  intros H.
  destruct (find _ (getDocumentChunks d)) as [s|] eqn:E; [|reflexivity].
  exfalso. apply find_some in E. destruct E as (Hin & Hk). apply kind_eqb_eq in Hk.
  destruct (lineCount d) eqn:En.
  - rewrite (getDocumentChunks_no_line d En) in Hin. destruct Hin as [<-|[]].
    discriminate.
  - assert (Hn : 1 <= lineCount d) by lia.
    pose proof (tiles_In _ _ _ _ (chunks_tiles d Hn) Hin) as Hb.
    pose proof (chunks_kinds d s Hn Hin (startLine s) ltac:(lia)) as K.
    rewrite Hk in K. apply (H (startLine s)); [lia|]. symmetry. exact K.
Qed.

End ProviderFacts.

(** X10. The edits [formatGitCommitMessage] returns are in document order
    and never overlap: every edit ends on a line before the line the next
    one starts on. *)
Theorem edits_are_ordered (d : TextDocument) :
  StronglySorted
    (fun e1 e2 => line (end_ (edit_range e1)) < line (start (edit_range e2)))
    (Formatter.formatGitCommitMessage d).
Proof.
  apply filter_defined_sorted; [|apply chunks_sorted].
  intros a b x y Ha Hb Hlt.
  apply chunk_edit_Some in Ha, Hb. destruct Ha as (-> & _), Hb as (-> & _).
  exact Hlt.
Qed.

(** X11. The folding ranges are in document order and never overlap, each
    lies inside the document, a line lies in a folding range exactly when
    it is of kind Paragraph or Comment, and a folding range is marked as a
    comment exactly when its lines are comments. *)
Theorem folding_ranges_fold_text_and_comments (d : TextDocument) :
  let folds := getGitCommitFoldingRanges d in
  StronglySorted (fun f1 f2 => fold_end f1 < fold_start f2) folds
  /\ Forall (fun f => fold_start f <= fold_end f < lineCount d
                      /\ (fold_kind f = Some FoldingComment
                          <-> lineKind d (fold_start f) = Comment)) folds
  /\ forall i, i < lineCount d ->
       ((exists f, In f folds /\ fold_start f <= i <= fold_end f)
        <-> lineKind d i = Paragraph \/ lineKind d i = Comment).
Proof.
  intros folds. split; [|split].
  - apply filter_defined_sorted; [|apply chunks_sorted].
    intros a b x y Ha Hb Hlt. apply chunk_fold_Some in Ha, Hb.
    destruct Ha as (_ & -> & _), Hb as (-> & _ & _). exact Hlt.
  - apply Forall_forall. intros f Hf. apply In_mapped in Hf.
    destruct Hf as (c & Hin & Hc). apply chunk_fold_Some in Hc.
    destruct Hc as (-> & -> & Hk).
    destruct (lineCount d) eqn:En.
    { rewrite (getDocumentChunks_no_line d En) in Hin. destruct Hin as [<-|[]].
      simpl in Hk. destruct Hk as [(Hk & _)|(Hk & _)]; discriminate. }
    assert (Hn : 1 <= lineCount d) by lia. rewrite <- En.
    pose proof (tiles_In _ _ _ _ (chunks_tiles d Hn) Hin) as Hb.
    pose proof (chunks_kinds d c Hn Hin (startLine c) ltac:(lia)) as K.
    split; [lia|]. rewrite <- K.
    destruct Hk as [(Hk & ->)|(Hk & ->)]; rewrite Hk; simpl;
      split; auto; discriminate.
  - intros i Hi. assert (Hn : 1 <= lineCount d) by lia. split.
    + intros (f & Hf & Hif). apply In_mapped in Hf.
      destruct Hf as (c & Hin & Hc). apply chunk_fold_Some in Hc.
      destruct Hc as (Hs & He & Hk). rewrite Hs, He in Hif.
      rewrite <- (chunks_kinds d c Hn Hin i) by lia.
      destruct Hk as [(Hk & _)|(Hk & _)]; rewrite Hk; auto.
    + intros Hk.
      destruct (tiles_cover _ _ _ i (chunks_tiles d Hn)) as (j & c & Hj & Hc); [lia|].
      apply nth_error_In in Hj.
      pose proof (chunks_kinds d c Hn Hj i ltac:(lia)) as K.
      destruct (chunk_fold_exists c) as (f & Hf).
      { rewrite K. destruct Hk as [Hk|Hk]; [left; exact Hk|right].
        rewrite Hk in K. destruct (kind c); simpl in K; congruence. }
      exists f. split; [apply In_mapped; eauto|].
      apply chunk_fold_Some in Hf. destruct Hf as (-> & -> & _). exact Hc.
Qed.

Lemma folding_ranges_fold_text_and_comments_witness :
  exists f, In f (getGitCommitFoldingRanges Examples.message)
            /\ fold_start f <= 3 <= fold_end f.
Proof.
  refine (proj2 (proj2 (proj2 (folding_ranges_fold_text_and_comments Examples.message))
                   3 _) _).
  - vm_compute. repeat constructor.
  - left. reflexivity.
Defined.

(** X12. The outline has one symbol for every chunk that is not blank, in
    document order and without overlap; range and selection range of a
    symbol are the range of its chunk, its detail is the lines of the
    chunk, and at most one symbol is the subject line. *)
Theorem outline_lists_the_chunks (d : TextDocument) :
  let symbols := getGitCommitSymbols d in
  map symbol_range symbols
  = map range (filter (fun c => negb (kind_eqb (kind c) Blank)) (getDocumentChunks d))
  /\ StronglySorted
       (fun s1 s2 => line (end_ (symbol_range s1)) < line (start (symbol_range s2)))
       symbols
  /\ Forall (fun sy =>
               symbol_selection sy = symbol_range sy
               /\ symbol_detail sy
                  = Extension.join_eol (eol d) (chunk_lines d (symbol_range sy)))
            symbols
  /\ length (filter (fun sy => text_eqb (symbol_name sy) (str "Subject Line")) symbols)
     <= 1.
Proof.
  intros symbols. split; [|split; [|split]].
  - subst symbols. unfold getGitCommitSymbols.
    induction (getDocumentChunks d) as [|c cs IH]; [reflexivity|]. simpl.
    destruct (chunk_symbol d c) as [sy|] eqn:E.
    + apply chunk_symbol_Some in E. destruct E as (E1 & _ & _ & E2 & _).
      destruct (kind c); try contradiction; simpl; congruence.
    + unfold chunk_symbol in E. destruct (kind c); try discriminate. exact IH.
  - apply filter_defined_sorted; [|apply chunks_sorted].
    intros a b x y Ha Hb Hlt. apply chunk_symbol_Some in Ha, Hb.
    destruct Ha as (-> & _), Hb as (-> & _). exact Hlt.
  - apply Forall_forall. intros sy Hsy. apply In_mapped in Hsy.
    destruct Hsy as (c & Hin & Hc). apply chunk_symbol_Some in Hc.
    destruct Hc as (-> & -> & -> & Hk & _). split; [reflexivity|].
    destruct (lineCount d) eqn:En.
    { rewrite (getDocumentChunks_no_line d En) in Hin. destruct Hin as [<-|[]].
      contradiction. }
    assert (Hn : 1 <= lineCount d) by lia.
    pose proof (chunks_whole_lines d c Hn Hin) as Hw. unfold whole_lines in Hw.
    pose proof (tiles_In _ _ _ _ (chunks_tiles d Hn) Hin) as Hb.
    unfold chunk_lines. rewrite Hw at 1. rewrite getText_whole_lines by lia.
    reflexivity.
  - apply Nat.le_trans with (2 := subject_count d).
    subst symbols. unfold getGitCommitSymbols, count_kind.
    induction (getDocumentChunks d) as [|c cs IH]; [simpl; lia|]. simpl.
    destruct (chunk_symbol d c) as [sy|] eqn:E.
    + apply chunk_symbol_Some in E. destruct E as (_ & _ & _ & _ & E).
      simpl. rewrite E. destruct (kind_eqb (kind c) Subject); simpl; lia.
    + destruct (kind_eqb (kind c) Subject); simpl; lia.
Qed.

(** X13. [getSubjectLineSelection] on a document with at least one line
    selects whole lines: from the start of the first line of kind
    Paragraph to the end of the last line of the run of such lines that
    begins there, or the first line of the document when no line is of
    kind Paragraph. [handleOpenGit] gives that selection to the active
    editor of a git-commit document. *)
Theorem subject_selection_is_first_paragraph (d : TextDocument) :
  1 <= lineCount d ->
  exists a e,
    a <= e < lineCount d
    /\ getSubjectLineSelection d
       = Some (mkSelection (mkPosition a 0) (mkPosition e (length (lineAt d e))))
    /\ (forall old,
          handleOpenGit (str "git-commit") (Some old) d
          = Some (Some (mkSelection (mkPosition a 0)
                          (mkPosition e (length (lineAt d e))))))
    /\ ((exists i, i < lineCount d /\ lineKind d i = Paragraph) ->
        (forall j, j < a -> lineKind d j <> Paragraph)
        /\ (forall j, a <= j <= e -> lineKind d j = Paragraph)
        /\ (S e < lineCount d -> lineKind d (S e) <> Paragraph))
    /\ ((forall i, i < lineCount d -> lineKind d i <> Paragraph) -> a = 0 /\ e = 0).
Proof.
  intros Hn.
  assert (Hopen : forall sel, getSubjectLineSelection d = Some sel ->
            forall old, handleOpenGit (str "git-commit") (Some old) d = Some (Some sel)).
  { intros sel Hsel old. unfold handleOpenGit. rewrite Hsel. reflexivity. }
  assert (Hcases : (exists i, i < lineCount d /\ lineKind d i = Paragraph)
                   \/ forall i, i < lineCount d -> lineKind d i <> Paragraph).
  { clear. induction (lineCount d) as [|n IH]; [right; intros; lia|].
    destruct IH as [(i & Hi & Hk)|IH]; [left; exists i; split; [lia|exact Hk]|].
    destruct (lineKind d n) eqn:E;
      try (right; intros i Hi; destruct (Nat.eq_dec i n) as [->|];
           [congruence|apply IH; lia]).
    left. exists n. auto. }
  destruct Hcases as [(i & Hi & Hk)|Hnone].
  - destruct (subject_chunk_found d i Hi Hk) as (s & Hfind & Hin & H1 & H2 & H3).
    pose proof (chunks_whole_lines d s Hn Hin) as Hw. unfold whole_lines in Hw.
    pose proof (tiles_In _ _ _ _ (chunks_tiles d Hn) Hin) as Hb.
    assert (Hsel : getSubjectLineSelection d
                   = Some (mkSelection (mkPosition (startLine s) 0)
                             (mkPosition (endLine s) (length (lineAt d (endLine s)))))).
    { unfold getSubjectLineSelection. rewrite Hfind, Hw. reflexivity. }
    exists (startLine s), (endLine s).
    split; [lia|]. split; [exact Hsel|]. split; [exact (Hopen _ Hsel)|]. split.
    + intros _. split; [exact H2|]. split; [|exact H3].
      intros j Hj. rewrite <- (chunks_kinds d s Hn Hin j) by lia.
      rewrite (chunks_kinds d s Hn Hin (startLine s)) by lia. exact H1.
    + intros H. destruct (H i Hi Hk).
  - assert (Hsel : getSubjectLineSelection d
                   = Some (mkSelection (mkPosition 0 0)
                             (mkPosition 0 (length (lineAt d 0))))).
    { unfold getSubjectLineSelection. rewrite (no_subject_chunk d Hnone).
      replace (0 <? lineCount d) with true by (symmetry; apply Nat.ltb_lt; lia).
      reflexivity. }
    exists 0, 0. split; [lia|]. split; [exact Hsel|]. split; [exact (Hopen _ Hsel)|].
    split; [|auto]. intros (i & Hi & Hk). destruct (Hnone i Hi Hk).
Qed.

Lemma subject_selection_is_first_paragraph_witness :
  exists a e,
    a <= e < lineCount Examples.commented_message
    /\ getSubjectLineSelection Examples.commented_message
       = Some (mkSelection (mkPosition a 0)
                 (mkPosition e (length (lineAt Examples.commented_message e)))).
Proof.
  destruct (subject_selection_is_first_paragraph Examples.commented_message)
    as (a & e & H1 & H2 & _).
  - vm_compute. repeat constructor.
  - exists a, e. split; [exact H1|exact H2].
Defined.

(** X14. For a document with at least one line [editEntireDocument]
    returns a single edit; it runs from the start of the first line to the
    end of the last line and holds what the callback makes of the whole
    text of the document. *)
Theorem whole_document_is_one_edit (S : Type)
    (editCallback : S -> text -> text * S) (st : S) (d : TextDocument) :
  1 <= lineCount d ->
  Extension.editEntireDocument editCallback st d
  = (Some [mkTextEdit
             (mkRange (mkPosition 0 0)
                (mkPosition (lineCount d - 1)
                   (length (lineAt d (lineCount d - 1)))))
             (fst (editCallback st (Extension.getFullText d)))],
     snd (editCallback st (Extension.getFullText d))).
Proof.
  intros Hn. unfold Extension.editEntireDocument.
  replace (lineCount d =? 0) with false by (symmetry; apply Nat.eqb_neq; lia).
  destruct (editCallback st (Extension.getFullText d)) as [out st']. simpl.
  f_equal. f_equal. f_equal. f_equal.
  unfold Extension.union, Extension.position_leb, lineRange. simpl.
  destruct (lineCount d - 1) as [|n] eqn:E; simpl.
  - rewrite Nat.leb_refl. reflexivity.
  - reflexivity.
Qed.

Lemma whole_document_is_one_edit_witness :
  fst (Extension.editEntireDocument PlainText.formatGitCommitMessage PlainText.fresh
         Examples.message)
  = Some [mkTextEdit (mkRange (mkPosition 0 0) (mkPosition 4 9))
            (str "Fix the parser" ++ NL :: NL :: str "It failed on empty input."
             ++ NL :: str "# comment")].
Proof.
  refine (eq_trans (f_equal fst (whole_document_is_one_edit nat
            PlainText.formatGitCommitMessage PlainText.fresh Examples.message _)) _).
  - vm_compute. repeat constructor.
  - reflexivity.
Defined.

(** ** The whole-document formatter collapses blank runs *)

Section NewlineFacts.

Lemma replace_newlines_leading s :
  forall run, leading_newlines (replace_newlines_from run s) + Nat.min run 2 <= 2.
Proof.
  induction s as [|c s IH]; intros run; simpl; [lia|].
  destruct (N.eqb c NL) eqn:E.
  - destruct (run <? 2) eqn:Er.
    + apply Nat.ltb_lt in Er. cbn [leading_newlines].
      change (N.eqb NL NL) with true. cbv iota.
      specialize (IH (S run)). lia.
    + apply Nat.ltb_ge in Er. specialize (IH (S run)). lia.
  - simpl. rewrite E. lia.
Qed.

Lemma replace_newlines_no_triple s :
  forall run l r, replace_newlines_from run s <> l ++ NL :: NL :: NL :: r.
Proof.
  induction s as [|c s IH]; intros run l r; simpl.
  - destruct l; discriminate.
  - assert (Hhead : forall out, leading_newlines out <= 2 ->
                                out <> [] ++ NL :: NL :: NL :: r).
    { intros out Hle ->. simpl in Hle. lia. }
    destruct (N.eqb c NL) eqn:E.
    + destruct (run <? 2) eqn:Er.
      * destruct l as [|x l].
        -- apply Hhead.
           pose proof (replace_newlines_leading (c :: s) run) as H.
           simpl in H. rewrite E, Er in H. lia.
        -- simpl. intros [= _ H]. exact (IH _ _ _ H).
      * apply IH.
    + destruct l as [|x l].
      * simpl. intros [= H _]. subst c. discriminate.
      * simpl. intros [= _ H]. exact (IH _ _ _ H).
Qed.

End NewlineFacts.

(** X15. Whatever the text and whatever [lastIndex] the call starts with,
    the result of the whole-document formatter never holds three newlines
    in a row: no two blank lines follow each other. *)
Theorem no_two_blank_lines_in_a_row (lastIndex : nat) (t : text) :
  forall l r,
    fst (PlainText.formatGitCommitMessage lastIndex t) <> l ++ NL :: NL :: NL :: r.
Proof.
  intros l r. unfold PlainText.formatGitCommitMessage. simpl.
  apply replace_newlines_no_triple.
Qed.

(** ** The versions of the formatter *)

Section VersionFacts.

Variable d : TextDocument.

Import TrailerSpec.

Lemma earlier_trailer_is_trailer t :
  Earlier.REGEX_TRAILER t = true -> REGEX_TRAILER t = true.
Proof.
  unfold Earlier.REGEX_TRAILER, REGEX_TRAILER. destruct t as [|c t]; [discriminate|].
  intros H. apply andb_true_iff in H. destruct H as (H1 & H2). rewrite H1.
  cbn [andb]. unfold trailer_rest.
  destruct (dropWhile is_token_char (c :: t)) as [|c1 [|c2 v]]; try discriminate.
  rewrite H2. reflexivity.
Qed.

Lemma earlier_loop_all ts :
  Earlier.trailer_loop ts = true ->
  Forall (fun t => REGEX_TRAILER t = true) ts.
Proof.
  induction ts as [|t ts IH]; simpl; [constructor|].
  destruct (Earlier.REGEX_TRAILER t) eqn:E; simpl; [|discriminate].
  intros H. constructor; [apply earlier_trailer_is_trailer, E|exact (IH H)].
Qed.

(** The scores count the lines that match and the lines that do not. *)
Lemma score_counts ts :
  Forall not_blank ts ->
  forall b,
    score b ts
    = (length (filter REGEX_TRAILER ts),
       length (filter (fun t => negb (REGEX_TRAILER t)) ts)).
Proof.
  induction 1 as [|t ts Ht _ IH]; intros b; [reflexivity|]. simpl.
  unfold entirely_whitespace, is_trailer_line. unfold not_blank, REGEX_BLANK in Ht.
  rewrite Ht, andb_false_r. destruct (REGEX_TRAILER t); rewrite IH; reflexivity.
Qed.

Lemma filter_all (A : Type) (p : A -> bool) l :
  Forall (fun x => p x = true) l <-> length (filter (fun x => negb (p x)) l) = 0.
Proof.
  induction l as [|x l IH]; simpl; [split; auto|].
  destruct (p x) eqn:E; simpl.
  - rewrite <- IH. split; [intros H; inversion H; auto|auto].
  - split; [intros H; inversion H; congruence|discriminate].
Qed.

Lemma filter_split (A : Type) (p : A -> bool) l :
  length (filter p l) + length (filter (fun x => negb (p x)) l) = length l.
Proof.
  induction l as [|x l IH]; simpl; [reflexivity|].
  destruct (p x); simpl; lia.
Qed.

(** [isTrailersChunk] on lines that are not blank, by the numbers of lines
    that match [REGEX_TRAILER]. *)
Lemma trailer_loop_counts t ts :
  Forall not_blank (t :: ts) ->
  (existsb (startsWith t) GIT_GENERATED_PREFIXES = false ->
   (trailer_loop (t :: ts) trailer_init = true
    <-> Forall (fun l => REGEX_TRAILER l = true) (t :: ts)))
  /\ (existsb (startsWith t) GIT_GENERATED_PREFIXES = true ->
      (trailer_loop (t :: ts) trailer_init = true
       <-> length (t :: ts) <= 4 * (1 + length (filter REGEX_TRAILER ts)))).
Proof.
  intros Hnb. rewrite (trailer_loop_spec _ Hnb).
  unfold is_trailers_block, counts. cbn [has_recognized_prefix].
  inversion Hnb as [|? ? Ht Hts]; subst. split; intros Hp; rewrite Hp.
  - rewrite (score_counts _ Hnb). rewrite filter_all.
    pose proof (filter_split _ REGEX_TRAILER (t :: ts)) as Hs.
    change (length (t :: ts)) with (S (length ts)) in Hs.
    split; [intros [(H & _)|(H & _)]; [exact H|discriminate]|].
    intros H. left. split; [exact H|lia].
  - rewrite (score_counts _ Hts).
    pose proof (filter_split _ REGEX_TRAILER ts) as Hs.
    change (length (t :: ts)) with (S (length ts)).
    split; [intros [(H1 & H2)|(_ & H)]; lia|]. intros H. right. split; [reflexivity|lia].
Qed.

Lemma earlier_implies_later c :
  In c (chunks (scan d (lineCount d))) -> kind c = Paragraph ->
  Earlier.isTrailersChunk c d = true -> isTrailersChunk c d = true.
Proof.
  intros Hin Hk He. unfold Earlier.isTrailersChunk in He. unfold isTrailersChunk.
  destruct (paragraph_chunk_lines d c Hin Hk) as (Hn & Hnb).
  pose proof (tiles_In _ _ _ _ (scan_tiles d _ Hn) Hin) as Hb.
  apply earlier_loop_all in He.
  destruct (chunk_lines d (range c)) as [|t ts] eqn:E.
  - unfold chunk_lines in E. unfold startLine, endLine in Hb.
    replace (S (line (end_ (range c))) - line (start (range c)))
      with (S (line (end_ (range c)) - line (start (range c)))) in E by lia.
    discriminate.
  - destruct (trailer_loop_counts t ts Hnb) as (H1 & H2).
    destruct (existsb (startsWith t) GIT_GENERATED_PREFIXES) eqn:Ep.
    + apply (H2 eq_refl). inversion He as [|? ? _ He']; subst.
      apply filter_all in He'.
      pose proof (filter_split _ REGEX_TRAILER ts).
      change (length (t :: ts)) with (S (length ts)). lia.
    + apply (H1 eq_refl), He.
Qed.

(** *** The first version *)

Lemma first_scan_S n : First.scan d (S n) = First.loop_body d (First.scan d n) n.
Proof. unfold First.scan. rewrite seq_S, fold_left_app. reflexivity. Qed.

Lemma later_kind_eqb a b :
  kind_eqb (First.later_kind a) (First.later_kind b) = First.kind_eqb a b.
Proof. destruct a, b; reflexivity. Qed.

Lemma later_rawKind t : rawKind t = First.later_kind (First.rawKind t).
Proof.
  unfold rawKind, First.rawKind. destruct (REGEX_BLANK t), (REGEX_SPLIT t); reflexivity.
Qed.

Lemma later_update_last f g cs :
  (forall c, First.later (f c) = g (First.later c)) ->
  map First.later (First.update_last f cs) = update_last g (map First.later cs).
Proof.
  intros H. induction cs as [|c cs IH]; [reflexivity|].
  destruct cs as [|c' cs]; simpl in *; [rewrite H|rewrite IH]; reflexivity.
Qed.

Lemma first_scan_agrees n :
  (forall i, i < n -> REGEX_CUT_LINE (lineAt d i) = false) ->
  scan d n = First.later_state (First.scan d n).
Proof.
  induction n as [|n IH]; intros Hcut; [reflexivity|].
  rewrite scan_S, first_scan_S, IH by (intros; apply Hcut; lia).
  set (st := First.scan d n). unfold loop_body, First.loop_body.
  cbn [First.later_state hadCutLine areInDiff lastKind chunks hadInitialLine
       hadSubjectLine].
  unfold cut_after, diff_after. rewrite (Hcut n) by lia.
  rewrite andb_false_r. cbn [orb andb].
  rewrite later_rawKind, later_kind_eqb.
  change Paragraph with (First.later_kind First.Paragraph). rewrite later_kind_eqb.
  destruct (First.kind_eqb (First.rawKind (lineAt d n)) (First.lastKind st)).
  - unfold First.later_state. cbn [First.chunks First.lastKind First.hadInitialLine
                                     First.hadSubjectLine].
    f_equal. symmetry. apply later_update_last. reflexivity.
  - unfold First.later_state. cbn [First.chunks First.lastKind First.hadInitialLine
                                     First.hadSubjectLine].
    f_equal. rewrite map_app. f_equal.
    + destruct (First.hadInitialLine st); [reflexivity|]. symmetry. apply map_removelast.
    + cbn [map First.later First.range First.kind]. f_equal. f_equal.
      destruct (First.kind_eqb _ _ && _); reflexivity.
Qed.

End VersionFacts.

(** X16. The version with the known prefixes reclassifies whenever the
    version before it did: the two return the same chunks, but for a last
    paragraph that only the later one takes for trailers. *)
Theorem later_version_keeps_trailers (d : TextDocument) :
  Forall2
    (fun a b =>
       range b = range a
       /\ (kind b = kind a \/ kind a = Paragraph /\ kind b = Trailers))
    (Earlier.getDocumentChunks d) (getDocumentChunks d).
Proof.
  unfold Earlier.getDocumentChunks, getDocumentChunks, reclassify.
  destruct (lastParagraph (chunks (scan d (lineCount d)))) as [[i c]|] eqn:E;
    [|apply reclassified_refl].
  destruct (lastParagraph_Some _ _ _ E) as (Hn & Hk & _).
  destruct (Earlier.isTrailersChunk c d) eqn:Ee.
  - rewrite (earlier_implies_later d c (nth_error_In _ _ Hn) Hk Ee).
    apply reclassified_refl.
  - destruct (isTrailersChunk c d); [|apply reclassified_refl].
    exact (set_kind_reclassified _ _ _ Hn Hk).
Qed.

(** X17. On a document without a cut line the loop of the later versions
    builds the chunks of the first version, so the later versions change
    nothing but the kind of a last paragraph that is taken for trailers. *)
Theorem first_version_agrees_without_cut_line (d : TextDocument) :
  (forall i, i < lineCount d -> REGEX_CUT_LINE (lineAt d i) = false) ->
  chunks (scan d (lineCount d)) = map First.later (First.getDocumentChunks d)
  /\ Forall2
       (fun a b =>
          range b = First.range a
          /\ (kind b = First.later_kind (First.kind a)
              \/ First.kind a = First.Paragraph /\ kind b = Trailers))
       (First.getDocumentChunks d) (getDocumentChunks d).
Proof.
  intros Hcut. pose proof (first_scan_agrees d (lineCount d) Hcut) as E.
  assert (Ec : chunks (scan d (lineCount d)) = map First.later (First.getDocumentChunks d))
    by (rewrite E; reflexivity).
  split; [exact Ec|].
  pose proof (chunks_reclassified d) as H. rewrite Ec in H.
  remember (getDocumentChunks d) as cs eqn:Ecs. clear Ecs Ec E.
  revert cs H. induction (First.getDocumentChunks d) as [|a l IH]; intros cs H;
    inversion H as [|x y xs ys Hxy Hrest]; subst; constructor.
  - destruct Hxy as (Hr & [Hk|(Hk1 & Hk2)]).
    + split; [exact Hr|left; exact Hk].
    + split; [exact Hr|right]. split; [|exact Hk2].
      simpl in Hk1. destruct (First.kind a); try discriminate. reflexivity.
  - apply IH, Hrest.
Qed.

Lemma first_version_agrees_without_cut_line_witness :
  chunks (scan Examples.message (lineCount Examples.message))
  = map First.later (First.getDocumentChunks Examples.message).
Proof.
  refine (proj1 (first_version_agrees_without_cut_line Examples.message _)).
  intros i Hi. destruct i as [|[|[|[|[|i]]]]]; try reflexivity.
  exfalso. vm_compute in Hi. repeat (apply le_S_n in Hi). inversion Hi.
Defined.

(** X18. [isTrailersChunk] on the last paragraph, by its lines: without a
    known prefix on the first line the chunk is taken for trailers exactly
    when every line is a trailer line; with one, exactly when at least a
    quarter of the lines are trailers, the first line counted as one. *)
Theorem trailers_by_lines (d : TextDocument) (i : nat) (c : GitCommitChunk) :
  lastParagraph (chunks (scan d (lineCount d))) = Some (i, c) ->
  exists t ts,
    chunk_lines d (range c) = t :: ts
    /\ (existsb (startsWith t) GIT_GENERATED_PREFIXES = false ->
        (isTrailersChunk c d = true
         <-> Forall (fun l => REGEX_TRAILER l = true) (t :: ts)))
    /\ (existsb (startsWith t) GIT_GENERATED_PREFIXES = true ->
        (isTrailersChunk c d = true
         <-> length (t :: ts) <= 4 * (1 + length (filter REGEX_TRAILER ts)))).
Proof.
  intros H. destruct (lastParagraph_Some _ _ _ H) as (Hn & Hk & _).
  destruct (paragraph_chunk_lines d c (nth_error_In _ _ Hn) Hk) as (Hl & Hnb).
  pose proof (tiles_In _ _ _ _ (scan_tiles d _ Hl) (nth_error_In _ _ Hn)) as Hb.
  unfold isTrailersChunk.
  destruct (chunk_lines d (range c)) as [|t ts] eqn:E.
  - unfold chunk_lines in E. unfold startLine, endLine in Hb.
    replace (S (line (end_ (range c))) - line (start (range c)))
      with (S (line (end_ (range c)) - line (start (range c)))) in E by lia.
    discriminate.
  - exists t, ts. split; [reflexivity|]. apply trailer_loop_counts, Hnb.
Qed.

Lemma trailers_by_lines_witness :
  isTrailersChunk (mkChunk (mkRange (mkPosition 2 0) (mkPosition 5 5)) Paragraph)
    Examples.three_prose = true.
Proof.
  destruct (trailers_by_lines Examples.three_prose 2
              (mkChunk (mkRange (mkPosition 2 0) (mkPosition 5 5)) Paragraph) eq_refl)
    as (t & ts & E & _ & H).
  injection E as <- <-.
  apply (H eq_refl). vm_compute. repeat constructor.
Defined.

(** ** No formatter changes a word *)

Section WordFacts.

Lemma words_all_space s : forallb is_space s = true -> words s = [].
Proof. intros H. exact (words_trailing [] s H []). Qed.

Lemma words_break a b :
  forall cur, words_from cur (a ++ NL :: b) = words_from cur a ++ words b.
Proof.
  induction a as [|c a IH]; intros cur; simpl.
  - destruct cur; reflexivity.
  - destruct (is_space c); [destruct cur|]; rewrite IH; reflexivity.
Qed.

Lemma join_nl_split s : join_nl (split_nl s) = s.
Proof.
  induction s as [|c s IH]; [reflexivity|]. simpl.
  destruct (N.eqb c NL) eqn:E.
  - apply N.eqb_eq in E. subst c.
    destruct (split_nl s) as [|l ls] eqn:El; [destruct (split_nl_not_empty _ El)|].
    simpl in *. rewrite IH. reflexivity.
  - destruct (split_nl s) as [|l ls] eqn:El; [destruct (split_nl_not_empty _ El)|].
    destruct ls; simpl in *; rewrite IH; reflexivity.
Qed.

Lemma words_join ls : words (join_nl ls) = flat_map words ls.
Proof.
  induction ls as [|l ls IH]; [reflexivity|].
  destruct ls as [|l' ls].
  - simpl. rewrite app_nil_r. reflexivity.
  - change (join_nl (l :: l' :: ls)) with (l ++ NL :: join_nl (l' :: ls)).
    unfold words at 1. rewrite words_break, IH. reflexivity.
Qed.

Lemma words_replace_newlines s :
  forall run cur, (1 <= run -> cur = []) ->
                  words_from cur (replace_newlines_from run s) = words_from cur s.
Proof.
  induction s as [|c s IH]; intros run cur Hrun; simpl; [reflexivity|].
  destruct (N.eqb c NL) eqn:E.
  - apply N.eqb_eq in E. subst c. rewrite NL_is_space.
    destruct (run <? 2) eqn:Er.
    + simpl. destruct cur; [|f_equal]; apply IH; reflexivity.
    + apply Nat.ltb_ge in Er. rewrite Hrun by lia. apply IH. reflexivity.
  - simpl. destruct (is_space c); [destruct cur|]; rewrite IH;
      try reflexivity; intros; lia.
Qed.

Lemma words_wrap t : words (replace_wrap (trim (replace_spaces t))) = words t.
Proof.
  transitivity (words (trim (replace_spaces t))); [|apply words_flat].
  unfold words. apply words_broken, wrap_breaks, flat_tidy.
Qed.

Lemma words_nl_end b x : words ((b ++ [NL]) ++ x) = words (b ++ [NL]) ++ words x.
Proof.
  rewrite <- app_assoc. simpl. unfold words at 1 2.
  rewrite !words_break. simpl. rewrite app_nil_r. reflexivity.
Qed.

(** The buffer of the splitting loop is empty or ends with a newline. *)
Lemma split_line_words st l :
  PlainText.buffer st = [] \/ (exists b, PlainText.buffer st = b ++ [NL]) ->
  (PlainText.buffer (PlainText.split_line st l) = []
   \/ exists b, PlainText.buffer (PlainText.split_line st l) = b ++ [NL])
  /\ flat_map words (PlainText.formatLines (PlainText.split_line st l))
     ++ words (PlainText.buffer (PlainText.split_line st l))
     = (flat_map words (PlainText.formatLines st) ++ words (PlainText.buffer st))
       ++ words l.
Proof.
  intros Hb. unfold PlainText.split_line.
  destruct (PlainText.REGEX_SPLIT_test (PlainText.split_lastIndex st) l) as [hit li].
  destruct hit; simpl.
  - split; [left; reflexivity|].
    rewrite flat_map_app. simpl. rewrite <- !app_assoc, !app_nil_r. reflexivity.
  - split; [right; exists (PlainText.buffer st ++ l); rewrite <- app_assoc; reflexivity|].
    rewrite <- app_assoc. f_equal.
    assert (El : words (l ++ [NL]) = words l)
      by (apply (words_trailing l [NL] eq_refl)).
    destruct Hb as [->|(b & ->)]; [simpl; exact El|].
    rewrite words_nl_end, El. reflexivity.
Qed.

Lemma split_lines_words ls :
  forall st,
    PlainText.buffer st = [] \/ (exists b, PlainText.buffer st = b ++ [NL]) ->
    flat_map words (PlainText.formatLines (fold_left PlainText.split_line ls st))
    ++ words (PlainText.buffer (fold_left PlainText.split_line ls st))
    = (flat_map words (PlainText.formatLines st) ++ words (PlainText.buffer st))
      ++ flat_map words ls.
Proof.
  induction ls as [|l ls IH]; intros st Hb; simpl; [rewrite app_nil_r; reflexivity|].
  destruct (split_line_words st l Hb) as (H1 & H2).
  rewrite (IH _ H1), H2, <- app_assoc. reflexivity.
Qed.

Lemma map_lines_words fl :
  forall st,
    flat_map words (PlainText.mapped (fold_left PlainText.map_line fl st))
    = flat_map words (PlainText.mapped st) ++ flat_map words fl.
Proof.
  induction fl as [|l fl IH]; intros st; simpl; [rewrite app_nil_r; reflexivity|].
  rewrite IH. unfold PlainText.map_line.
  destruct (PlainText.REGEX_SPLIT_test (PlainText.map_lastIndex st) l) as [hit li].
  destruct hit; [|destruct (negb (PlainText.hadSubjectLine st))]; simpl;
    rewrite flat_map_app; simpl; rewrite app_nil_r, <- app_assoc; f_equal; f_equal.
  - apply words_trim.
  - apply words_flat.
  - apply words_wrap.
Qed.

Lemma lineKind_Blank i d : lineKind d i = Blank -> REGEX_BLANK (lineAt d i) = true.
Proof.
  destruct (lineKind_cases d i) as [(-> & _)|(_ & ->)]; [discriminate|].
  unfold rawKind. destruct (REGEX_BLANK _); [reflexivity|].
  destruct (REGEX_SPLIT _); discriminate.
Qed.

Lemma join_eol_all_space e ls :
  forallb is_space e = true -> Forall (fun l => forallb is_space l = true) ls ->
  forallb is_space (Extension.join_eol e ls) = true.
Proof.
  intros He. induction 1 as [|l ls Hl Hls IH]; [reflexivity|].
  destruct ls as [|l' ls]; [exact Hl|].
  change (Extension.join_eol e (l :: l' :: ls))
    with (l ++ e ++ Extension.join_eol e (l' :: ls)).
  rewrite !forallb_app, Hl, He, IH. reflexivity.
Qed.

End WordFacts.

(** X19. The whole-document formatter changes whitespace only: whatever
    the text and whatever [lastIndex] the call starts with, the result has
    the tokens of the text, in the same order. *)
Theorem whole_document_keeps_the_words (lastIndex : nat) (t : text) :
  words (fst (PlainText.formatGitCommitMessage lastIndex t)) = words t.
Proof.
  unfold PlainText.formatGitCommitMessage. cbn [fst].
  set (st := fold_left PlainText.split_line (split_nl t)
               (PlainText.mkSplitting [] [] lastIndex)).
  set (fl := if 0 <? length (PlainText.buffer st)
             then PlainText.formatLines st ++ [PlainText.buffer st]
             else PlainText.formatLines st).
  set (m := fold_left PlainText.map_line fl _).
  transitivity (words (join_nl (PlainText.mapped m))).
  { unfold words, replace_newlines. apply words_replace_newlines. intros; lia. }
  transitivity (flat_map words (split_nl t));
    [|rewrite <- words_join, join_nl_split; reflexivity].
  rewrite words_join. subst m. rewrite map_lines_words. cbn [PlainText.mapped app flat_map].
  pose proof (split_lines_words (split_nl t) (PlainText.mkSplitting [] [] lastIndex)
                (or_introl eq_refl)) as H.
  fold st in H. cbn [PlainText.formatLines PlainText.buffer flat_map app] in H.
  change (words []) with (@nil text) in H. cbn [app] in H.
  rewrite <- H. subst fl.
  destruct (PlainText.buffer st) as [|c b] eqn:Eb.
  - simpl. rewrite app_nil_r. reflexivity.
  - cbn [length Nat.ltb Nat.leb]. rewrite flat_map_app. simpl.
    rewrite app_nil_r. reflexivity.
Qed.

(** X20. In a document whose end-of-line sequence is whitespace, no edit
    of [formatGitCommitMessage] changes a word: the new text of every edit
    has the tokens of the text it replaces, in the same order. *)
Theorem edits_keep_the_words (d : TextDocument) (e : TextEdit) :
  forallb is_space (eol d) = true ->
  In e (Formatter.formatGitCommitMessage d) ->
  words (newText e) = words (getText d (edit_range e)).
Proof.
  intros Heol He. apply In_edits in He. destruct He as (c & Hin & Hc).
  unfold chunk_edit in Hc. destruct (kind c) eqn:Hk; try discriminate;
    injection Hc as <-; cbn [newText edit_range].
  - apply words_flat.
  - apply words_wrap.
  - symmetry. apply words_all_space.
    destruct (lineCount d) eqn:En.
    + rewrite (getDocumentChunks_no_line d En) in Hin. destruct Hin as [<-|[]].
      reflexivity.
    + assert (Hn : 1 <= lineCount d) by lia.
      pose proof (chunks_whole_lines d c Hn Hin) as Hw. unfold whole_lines in Hw.
      pose proof (tiles_In _ _ _ _ (chunks_tiles d Hn) Hin) as Hb.
      rewrite Hw, getText_whole_lines by lia.
      apply join_eol_all_space; [exact Heol|].
      apply Forall_map, Forall_forall. intros i Hi. apply in_seq in Hi.
      apply lineKind_Blank.
      rewrite <- (chunks_kinds d c Hn Hin i) by lia. rewrite Hk. reflexivity.
  - reflexivity.
Qed.

Lemma edits_keep_the_words_witness :
  words (str "It failed on empty input.")
  = words (getText Examples.message (mkRange (mkPosition 2 0) (mkPosition 3 12))).
Proof.
  refine (edits_keep_the_words Examples.message
            (mkTextEdit (mkRange (mkPosition 2 0) (mkPosition 3 12))
               (str "It failed on empty input.")) eq_refl _).
  vm_compute. auto.
Defined.
